(** * serial.c: interrupt-driven serial driver

    A shallow embedding of [serial.c]: the receive ring buffer filled by the
    receive-complete interrupt and drained by [serialRead], the transmit ring
    buffer filled by [serialWrite] and drained by the data-register-empty
    interrupt together with the UDRIE0 arming bit, and the integer printing
    helpers layered on [printByte].

    Conventions.
    - C [int] and [unsigned char] objects are integers in [Z]; the C operator
      [%] is [Z.rem] (truncating), conversion to [unsigned char] is reduction
      modulo 256, and an 8-bit I/O register is a [Z] reduced modulo 256 after
      every update.
    - The contents of the two byte arrays are values of [Byte.byte].
    - An array is a list updated in place by index.  Indexing outside the
      array is undefined in C; the ring-buffer accessors below are total and
      the in-range invariant of the indices is proved separately, while the
      local digit array of [printIntegerInBase] reports an out-of-bounds
      store explicitly. *)

From Stdlib Require Import ZArith Lia List Strings.Byte.
From stdpp Require Import base numbers list relations.

Local Open Scope Z_scope.

#[global] Instance byte_inhabited : Inhabited byte := populate x00.

(** ** Build configuration and register layout *)

(** [RX_BUFFER_SIZE] depends on the [__AVR_ATmega328P__] preprocessor symbol. *)
Inductive mcu : Set := ATmega328P | OtherAVR.

Definition RX_BUFFER_SIZE (m : mcu) : Z :=
  match m with
  | ATmega328P => 256
  | OtherAVR => 64
  end.

Definition TX_BUFFER_SIZE : Z := 16.

(** Bit positions of the USART0 control and status registers, as given by
    [avr/io.h] for the ATmega328P (the header is not part of the sources). *)
Definition UDRE0 : Z := 5.   (* UCSR0A: data register empty *)
Definition RXCIE0 : Z := 7.  (* UCSR0B: receive-complete interrupt enable *)
Definition UDRIE0 : Z := 5.  (* UCSR0B: data-register-empty interrupt enable *)
Definition RXEN0 : Z := 4.   (* UCSR0B: receiver enable *)
Definition TXEN0 : Z := 3.   (* UCSR0B: transmitter enable *)

(** Conversion to [unsigned char], also used for 8-bit registers. *)
Definition uchar (x : Z) : Z := x mod 256.

Definition byte_to_Z (b : byte) : Z := Z.of_N (Byte.to_N b).

Definition byte_of_Z (x : Z) : byte :=
  match Byte.of_N (Z.to_N (uchar x)) with
  | Some b => b
  | None => x00
  end.

(** ** Logical view of a ring buffer

    These are not functions of the driver: they name what the indices mean,
    namely the bytes stored from [tail] up to (excluding) [head]. *)

Definition ring_count (N head tail : Z) : nat := Z.to_nat ((head - tail) mod N).

Definition ring_slot (N tail : Z) (k : nat) : nat :=
  Z.to_nat ((tail + Z.of_nat k) mod N).

Definition ring_contents (N : Z) (buf : list byte) (head tail : Z) : list byte :=
  map (fun k => buf !!! ring_slot N tail k) (seq 0 (ring_count N head tail)).

(** ** Receive side *)

Module Rx.

Record state : Type := mk {
  rx_buffer : list byte;
  rx_buffer_head : Z;
  rx_buffer_tail : Z
}.

(** Static initialisation: a zeroed array and both indices at 0. *)
Definition init (m : mcu) : state :=
  mk (replicate (Z.to_nat (RX_BUFFER_SIZE m)) x00) 0 0.

(** The sentinel returned by [serialRead] when it has nothing to return. *)
Definition EMPTY : Z := -1.

Definition serialAnyAvailable (s : state) : bool :=
  negb (rx_buffer_head s =? rx_buffer_tail s).

Definition serialRead (m : mcu) (s : state) : Z * state :=
  if serialAnyAvailable s then (-1, s)
  else
    let c := rx_buffer s !!! Z.to_nat (rx_buffer_tail s) in
    (byte_to_Z c,
     mk (rx_buffer s) (rx_buffer_head s)
        (Z.rem (rx_buffer_tail s + 1) (RX_BUFFER_SIZE m))).

Definition serialFlush (s : state) : state :=
  mk (rx_buffer s) (rx_buffer_tail s) (rx_buffer_tail s).

(** The receive-complete interrupt; [c] is the byte read from UDR0. *)
Definition USART_RX_vect (m : mcu) (c : byte) (s : state) : state :=
  let i := Z.rem (rx_buffer_head s + 1) (RX_BUFFER_SIZE m) in
  if negb (i =? rx_buffer_tail s) then
    mk (<[Z.to_nat (rx_buffer_head s) := c]> (rx_buffer s)) i (rx_buffer_tail s)
  else s.

(** A burst of bytes, one interrupt each, with no read in between. *)
Definition receive_all (m : mcu) (l : list byte) (s : state) : state :=
  fold_left (fun s c => USART_RX_vect m c s) l s.

(** [n] consecutive calls of [serialRead], results in call order. *)
Fixpoint read_n (m : mcu) (n : nat) (s : state) : list Z * state :=
  match n with
  | O => ([], s)
  | S n' =>
      let '(r, s1) := serialRead m s in
      let '(rs, s2) := read_n m n' s1 in
      (r :: rs, s2)
  end.

Definition valid (m : mcu) (s : state) : Prop :=
  length (rx_buffer s) = Z.to_nat (RX_BUFFER_SIZE m)
  /\ 0 <= rx_buffer_head s < RX_BUFFER_SIZE m
  /\ 0 <= rx_buffer_tail s < RX_BUFFER_SIZE m.

Definition count (m : mcu) (s : state) : nat :=
  ring_count (RX_BUFFER_SIZE m) (rx_buffer_head s) (rx_buffer_tail s).

Definition contents (m : mcu) (s : state) : list byte :=
  ring_contents (RX_BUFFER_SIZE m) (rx_buffer s)
    (rx_buffer_head s) (rx_buffer_tail s).

End Rx.

(** ** Transmit side *)

Module Tx.

(** [UDR0] is write-only here: the field records every byte stored into
    the hardware output register, oldest first. *)
Record state : Type := mk {
  tx_buffer : list byte;
  tx_buffer_head : Z;
  tx_buffer_tail : Z;
  UCSR0B : Z;
  UDR0 : list byte
}.

(** Lines 54-58 of [beginSerial]: the three enable bits of UCSR0B. *)
Definition beginSerial_UCSR0B (r : Z) : Z :=
  let r := uchar (Z.lor r (Z.shiftl 1 RXEN0)) in
  let r := uchar (Z.lor r (Z.shiftl 1 TXEN0)) in
  uchar (Z.lor r (Z.shiftl 1 RXCIE0)).

(** Static initialisation followed by [beginSerial]; UCSR0B is 0 after a
    hardware reset. *)
Definition init : state :=
  mk (replicate (Z.to_nat TX_BUFFER_SIZE) x00) 0 0 (beginSerial_UCSR0B 0) [].

Definition armed (s : state) : bool := Z.testbit (UCSR0B s) UDRIE0.

(** What a call of [serialWrite] amounts to when no interrupt preempts it:
    it returns, or it spins forever in the wait loop of line 81. *)
Inductive outcome : Type :=
| Returned (s : state)
| Spinning (c : byte) (newhead : Z).

(** Line 92. *)
Definition write_UDR0 (c : byte) (s : state) : state :=
  mk (tx_buffer s) (tx_buffer_head s) (tx_buffer_tail s) (UCSR0B s)
     (UDR0 s ++ [c]).

(** Lines 77-78. *)
Definition next_head (s : state) : Z :=
  Z.rem (uchar (tx_buffer_head s + 1)) TX_BUFFER_SIZE.

(** Lines 83-84: store the byte, then publish the new head. *)
Definition store_and_advance (c : byte) (newhead : Z) (s : state) : state :=
  mk (<[Z.to_nat (tx_buffer_head s) := c]> (tx_buffer s)) newhead
     (tx_buffer_tail s) (UCSR0B s) (UDR0 s).

(** Line 88 ([sei] of line 87 has no effect on the modelled state). *)
Definition arm (s : state) : state :=
  mk (tx_buffer s) (tx_buffer_head s) (tx_buffer_tail s)
     (uchar (Z.lor (UCSR0B s) (Z.shiftl 1 UDRIE0))) (UDR0 s).

(** Lines 83-88, the part of the slow path after the wait loop. *)
Definition enqueue (c : byte) (newhead : Z) (s : state) : state :=
  arm (store_and_advance c newhead s).

(** The condition of line 70; [ucsr0a] is the value read from UCSR0A. *)
Definition use_buffer (ucsr0a : Z) (s : state) : bool :=
  (Z.land ucsr0a (Z.shiftl 1 UDRE0) =? 0)
  || negb (tx_buffer_head s =? tx_buffer_tail s).

Definition serialWrite (ucsr0a : Z) (c : byte) (s : state) : outcome :=
  if use_buffer ucsr0a s then
    let newhead := next_head s in
    if newhead =? tx_buffer_tail s then Spinning c newhead
    else Returned (enqueue c newhead s)
  else Returned (write_UDR0 c s).

(** The data-register-empty interrupt. *)
Definition USART_UDRE_vect (s : state) : state :=
  let tail := tx_buffer_tail s in
  let c := tx_buffer s !!! Z.to_nat tail in
  let tail := Z.rem (uchar (tail + 1)) TX_BUFFER_SIZE in
  let ucsr0b :=
    if tail =? tx_buffer_head s
    then uchar (Z.land (UCSR0B s) (Z.lnot (Z.shiftl 1 UDRIE0)))
    else UCSR0B s in
  mk (tx_buffer s) (tx_buffer_head s) tail ucsr0b (UDR0 s ++ [c]).

Definition valid (s : state) : Prop :=
  length (tx_buffer s) = Z.to_nat TX_BUFFER_SIZE
  /\ 0 <= tx_buffer_head s < TX_BUFFER_SIZE
  /\ 0 <= tx_buffer_tail s < TX_BUFFER_SIZE.

Definition pending (s : state) : list byte :=
  ring_contents TX_BUFFER_SIZE (tx_buffer s)
    (tx_buffer_head s) (tx_buffer_tail s).

(** *** The foreground preempted by the interrupt

    Lines 83 and 84 taken one at a time; [store_and_advance] is their
    composition. *)
Definition store_byte (c : byte) (s : state) : state :=
  mk (<[Z.to_nat (tx_buffer_head s) := c]> (tx_buffer s)) (tx_buffer_head s)
     (tx_buffer_tail s) (UCSR0B s) (UDR0 s).

Definition advance_head (newhead : Z) (s : state) : state :=
  mk (tx_buffer s) newhead (tx_buffer_tail s) (UCSR0B s) (UDR0 s).

(** Where the foreground stands: between two calls, or in front of one of
    the statements of [serialWrite], with the locals [c] and [newhead] of
    the call in progress. *)
Inductive pc : Type :=
| Idle
| AtWait (c : byte) (newhead : Z)      (* line 81 *)
| AtStore (c : byte) (newhead : Z)     (* line 83 *)
| AtAdvance (c : byte) (newhead : Z)   (* line 84 *)
| AtSei (c : byte) (newhead : Z)       (* line 87 *)
| AtArm (c : byte) (newhead : Z)       (* line 88 *)
| AtDirect (c : byte).                 (* line 92 *)

(** A configuration: the driver state, the foreground's position, the
    global interrupt-enable flag of the status register, and the history of
    the bytes handed to [serialWrite] so far. *)
Record config : Type := cfg {
  hw : state;
  at_pc : pc;
  SREG_I : bool;
  written : list byte
}.

(** After a hardware reset the global interrupt-enable flag is clear; the
    only statement of the file that sets it is the [sei] of line 87. *)
Definition start : config := cfg init Idle false [].

(** One step is one statement of the foreground or one whole run of the
    interrupt routine, which runs to completion and which the hardware
    starts only while interrupts are enabled globally and UDRIE0 is set.
    A call whose wait loop cannot be left has no foreground step. *)
Inductive step : config -> config -> Prop :=
| step_call ucsr0a c s i w :
    step (cfg s Idle i w)
         (cfg s (if use_buffer ucsr0a s then AtWait c (next_head s)
                 else AtDirect c) i (w ++ [c]))
| step_wait c newhead s i w :
    newhead <> tx_buffer_tail s ->
    step (cfg s (AtWait c newhead) i w) (cfg s (AtStore c newhead) i w)
| step_store c newhead s i w :
    step (cfg s (AtStore c newhead) i w)
         (cfg (store_byte c s) (AtAdvance c newhead) i w)
| step_advance c newhead s i w :
    step (cfg s (AtAdvance c newhead) i w)
         (cfg (advance_head newhead s) (AtSei c newhead) i w)
| step_sei c newhead s i w :
    step (cfg s (AtSei c newhead) i w) (cfg s (AtArm c newhead) true w)
| step_arm c newhead s i w :
    step (cfg s (AtArm c newhead) i w) (cfg (arm s) Idle i w)
| step_direct c s i w :
    step (cfg s (AtDirect c) i w) (cfg (write_UDR0 c s) Idle i w)
| step_drain s p w :
    armed s = true ->
    step (cfg s p true w) (cfg (USART_UDRE_vect s) p true w).

Definition reachable (k : config) : Prop := rtc step start k.

(** What the statements in front of line 88 have established (proved below
    for every reachable configuration): the indices are in range, a call
    in front of its store holds the successor of [head] in [newhead], and
    a call that has passed line 84 has its byte in the slot before
    [newhead] and [head] equal to [newhead]. *)
Definition call_progress (k : config) : Prop :=
  valid (hw k)
  /\ match at_pc k with
     | AtWait _ newhead | AtStore _ newhead => newhead = next_head (hw k)
     | AtAdvance c newhead =>
         newhead = next_head (hw k)
         /\ tx_buffer (hw k) !!! Z.to_nat (tx_buffer_head (hw k)) = c
     | AtSei c newhead | AtArm c newhead =>
         tx_buffer_head (hw k) = newhead
         /\ tx_buffer (hw k) !!! Z.to_nat ((newhead - 1) mod TX_BUFFER_SIZE) = c
     | Idle | AtDirect _ => True
     end.

End Tx.

(** ** Printing helpers *)

Module Print.

(** [long] and [unsigned long] are 32 bits wide with avr-gcc, so the local
    array of [printIntegerInBase] has [8 * sizeof(long) = 32] slots. *)
Definition sizeof_long : Z := 4.
Definition ULONG_MOD : Z := 2 ^ (8 * sizeof_long).
Definition BUF_LEN : nat := Z.to_nat (8 * sizeof_long).

Inductive result (A : Type) : Type :=
| Done (a : A)
| OutOfFuel
| Undefined.   (* division by zero, or a store outside the array *)
Arguments Done {A} a.
Arguments OutOfFuel {A}.
Arguments Undefined {A}.

(** The [while (n > 0)] loop of lines 201-204; one unit of fuel per
    iteration. *)
Fixpoint digit_loop (fuel : nat) (n base : Z) (buf : list Z) (i : nat)
  : result (list Z * nat) :=
  if n >? 0 then
    match fuel with
    | O => OutOfFuel
    | S fuel' =>
        if base =? 0 then Undefined
        else if (BUF_LEN <=? i)%nat then Undefined
        else digit_loop fuel' (n / base) base
               (<[i := uchar (n mod base)]> buf) (S i)
    end
  else Done (buf, i).

(** The argument of [printByte] in lines 207-209. *)
Definition digit_char (d : Z) : byte :=
  byte_of_Z (if d <? 10 then byte_to_Z "0" + d else byte_to_Z "A" + d - 10).

(** The [for (; i > 0; i--)] loop of lines 206-209, as the list of bytes
    passed to [printByte]. *)
Fixpoint print_loop (buf : list Z) (i : nat) : list byte :=
  match i with
  | O => []
  | S j => digit_char (buf !!! j) :: print_loop buf j
  end.

(** The functions return the bytes they pass to [printByte], that is to
    [serialWrite], in call order.  The local array starts out as [buf0]
    (its contents are indeterminate in C). *)
Definition printIntegerInBase_from (buf0 : list Z) (fuel : nat) (n base : Z)
  : result (list byte) :=
  if n =? 0 then Done ["0"%byte]
  else
    match digit_loop fuel n base buf0 0 with
    | Done (buf, i) => Done (print_loop buf i)
    | OutOfFuel => OutOfFuel
    | Undefined => Undefined
    end.

Definition printIntegerInBase : nat -> Z -> Z -> result (list byte) :=
  printIntegerInBase_from (replicate BUF_LEN 0).

(** [n] is a [long]; negation and the conversion to [unsigned long] at the
    call are taken modulo [2^32]. *)
Definition printInteger (fuel : nat) (n : Z) : result (list byte) :=
  if n <? 0 then
    match printIntegerInBase fuel ((- n) mod ULONG_MOD) 10 with
    | Done out => Done ("-"%byte :: out)
    | OutOfFuel => OutOfFuel
    | Undefined => Undefined
    end
  else printIntegerInBase fuel (n mod ULONG_MOD) 10.

(** The digit alphabet in the words of the specification: ['0'-'9'], then
    uppercase ['A'-'Z']. *)
Definition digit_alphabet : list byte :=
  ["0"; "1"; "2"; "3"; "4"; "5"; "6"; "7"; "8"; "9";
   "A"; "B"; "C"; "D"; "E"; "F"; "G"; "H"; "I"; "J"; "K"; "L"; "M";
   "N"; "O"; "P"; "Q"; "R"; "S"; "T"; "U"; "V"; "W"; "X"; "Y"; "Z"]%byte.

Definition digit_symbol (d : Z) : byte := digit_alphabet !!! Z.to_nat d.

(** Value of a most-significant-first digit string. *)
Definition digits_value (base : Z) (ds : list Z) : Z :=
  fold_left (fun acc d => acc * base + d) ds 0.

(** The digits the [while] loop extracts, least significant first (a
    proof device: the loop of [digit_loop] without the array). *)
Fixpoint lsd_digits (k : nat) (n base : Z) : list Z :=
  match k with
  | O => []
  | S k' => if n >? 0 then n mod base :: lsd_digits k' (n / base) base else []
  end.

End Print.

(** ** Sequences of operations on the receive side *)

Module RxRun.

Inductive event : Type :=
| Receive (c : byte)   (* one run of the receive-complete interrupt *)
| Read                 (* one call of [serialRead] *)
| Flush.               (* one call of [serialFlush] *)

(** Runs the events in order; the list collects what the calls of
    [serialRead] returned. *)
Fixpoint run (m : mcu) (evs : list event) (s : Rx.state) : list Z * Rx.state :=
  match evs with
  | [] => ([], s)
  | Receive c :: evs' => run m evs' (Rx.USART_RX_vect m c s)
  | Read :: evs' =>
      let '(r, s1) := Rx.serialRead m s in
      let '(rs, s2) := run m evs' s1 in
      (r :: rs, s2)
  | Flush :: evs' => run m evs' (Rx.serialFlush s)
  end.

Definition is_read (e : event) : bool :=
  match e with Read => true | _ => false end.

Definition is_flush (e : event) : bool :=
  match e with Flush => true | _ => false end.

Definition reads (evs : list event) : nat := length (filter is_read evs).

Definition no_flush (evs : list event) : bool := forallb (fun e => negb (is_flush e)) evs.

End RxRun.

(** ** Sequences of operations on the transmit side *)

Module TxRun.

(** Lines 167-170: [printByte] is a plain call of [serialWrite]. *)
Definition printByte : Z -> byte -> Tx.state -> Tx.outcome := Tx.serialWrite.

(** Consecutive calls of [printByte] with no interrupt in between, each
    paired with the value it reads from UCSR0A; the run ends at the first
    call that would spin. *)
Fixpoint write_all (ws : list (Z * byte)) (s : Tx.state) : Tx.outcome :=
  match ws with
  | [] => Tx.Returned s
  | (ucsr0a, c) :: ws' =>
      match printByte ucsr0a c s with
      | Tx.Returned s' => write_all ws' s'
      | Tx.Spinning c' newhead => Tx.Spinning c' newhead
      end
  end.

(** [n] consecutive runs of the data-register-empty interrupt. *)
Fixpoint drain (n : nat) (s : Tx.state) : Tx.state :=
  match n with
  | O => s
  | S n' => drain n' (Tx.USART_UDRE_vect s)
  end.

End TxRun.

(** ** Peripheral set-up *)

Module Setup.

(** UCSR0A bit 1 (double transmission speed), from [avr/io.h]. *)
Definition U2X0 : Z := 1.

Record usart : Type := mk {
  UBRR0H : Z;
  UBRR0L : Z;
  UCSR0A : Z;
  UCSR0B : Z
}.

(** The value both baud-rate registers are loaded from (lines 47-48), with
    [/] of C as [Z.quot].  It stands for the C expression only for
    [F_CPU >= 0] and [baud > 0]: for [baud = 0] line 47 divides by zero,
    and every theorem about [beginSerial] assumes a positive baud rate. *)
Definition divisor (F_CPU baud : Z) : Z :=
  Z.quot (Z.quot F_CPU 16 + Z.quot baud 2) baud - 1.

(** [beginSerial]; [F_CPU] is a macro of the build, not of the sources. *)
Definition beginSerial (F_CPU baud : Z) (r : usart) : usart :=
  mk (uchar (Z.shiftr (divisor F_CPU baud) 8))
     (uchar (divisor F_CPU baud))
     (uchar (Z.land (UCSR0A r) (Z.lnot (Z.shiftl 1 U2X0))))
     (Tx.beginSerial_UCSR0B (UCSR0B r)).

End Setup.

(** ** Printing strings *)

Module Strings.

(** The argument is the memory from the pointer onwards; running off its
    end without meeting a NUL is a read outside the object. *)
Fixpoint printString (mem : list byte) : Print.result (list byte) :=
  match mem with
  | [] => Print.Undefined
  | c :: rest =>
      if byte_to_Z c =? 0 then Print.Done []
      else
        match printString rest with
        | Print.Done out => Print.Done (c :: out)
        | Print.OutOfFuel => Print.OutOfFuel
        | Print.Undefined => Print.Undefined
        end
  end.

(** Conversion of a byte to [char], which is signed with avr-gcc. *)
Definition schar (b : byte) : Z :=
  if byte_to_Z b <? 128 then byte_to_Z b else byte_to_Z b - 256.

(** [printPgmString] keeps each byte in a [char] before passing it to
    [printByte], which takes an [unsigned char]. *)
Fixpoint printPgmString (mem : list byte) : Print.result (list byte) :=
  match mem with
  | [] => Print.Undefined
  | b :: rest =>
      let c := schar b in
      if c =? 0 then Print.Done []
      else
        match printPgmString rest with
        | Print.Done out => Print.Done (byte_of_Z c :: out)
        | Print.OutOfFuel => Print.OutOfFuel
        | Print.Undefined => Print.Undefined
        end
  end.

End Strings.

(** ** Reading printed numbers back

    Not part of the driver: the reader a terminal program would apply to
    the printed text, used to state that printing loses nothing. *)

Module Parse.

Definition digit_of_char (b : byte) : option Z :=
  let c := byte_to_Z b in
  if (48 <=? c) && (c <=? 57) then Some (c - 48)
  else if (65 <=? c) && (c <=? 90) then Some (c - 55)
  else None.

Fixpoint parse_from (base acc : Z) (bs : list byte) : option Z :=
  match bs with
  | [] => Some acc
  | b :: rest =>
      match digit_of_char b with
      | Some d => if d <? base then parse_from base (acc * base + d) rest else None
      | None => None
      end
  end.

Definition parse_unsigned (base : Z) (bs : list byte) : option Z :=
  match bs with
  | [] => None
  | _ => parse_from base 0 bs
  end.

Definition parse_signed (bs : list byte) : option Z :=
  match bs with
  | b :: rest =>
      if byte_to_Z b =? 45
      then option_map Z.opp (parse_unsigned 10 rest)
      else parse_unsigned 10 bs
  | [] => None
  end.

End Parse.

(** * Proofs *)

(** ** Arithmetic of wrapping indices *)

Lemma mod_window N x :
  0 < N -> - N <= x < 2 * N ->
  (x < 0 /\ x mod N = x + N)
  \/ (0 <= x < N /\ x mod N = x)
  \/ (N <= x /\ x mod N = x - N).
Proof.
  intros HN Hx.
  destruct (Z_lt_dec x 0) as [Hneg|Hnn].
  - left. split; [lia|]. symmetry.
    apply (Z.mod_unique_pos x N (-1) (x + N)); lia.
  - right. destruct (Z_lt_dec x N) as [Hlt|Hge].
    + left. split; [lia|]. apply Z.mod_small; lia.
    + right. split; [lia|]. symmetry.
      apply (Z.mod_unique_pos x N 1 (x - N)); lia.
Qed.

(** Replace every innermost [_ mod N] whose argument lies within one period
    of the canonical range, splitting on which period it is in. *)
Ltac mod_window N :=
  repeat match goal with
  | |- context [?x mod N] =>
      lazymatch x with
      | context [_ mod N] => fail
      | _ => idtac
      end;
      let E := fresh "E" in
      destruct (mod_window N x) as [[? E]|[[? E]|[? E]]]; [lia|lia|..];
      rewrite E in *; clear E
  | H : context [?x mod N] |- _ =>
      lazymatch x with
      | context [_ mod N] => fail
      | _ => idtac
      end;
      let E := fresh "E" in
      destruct (mod_window N x) as [[? E]|[[? E]|[? E]]]; [lia|lia|..];
      rewrite E in *; clear E
  end.

Lemma rem_succ_mod N x : 0 < N -> 0 <= x -> Z.rem (x + 1) N = (x + 1) mod N.
Proof. intros. apply Z.rem_mod_nonneg; lia. Qed.

(** ** The logical view of a ring buffer *)

Section Ring.
Variable N : Z.
Hypothesis N_pos : 0 < N.

Implicit Types (buf : list byte) (h t : Z).

Lemma ring_contents_length buf h t :
  length (ring_contents N buf h t) = ring_count N h t.
Proof. unfold ring_contents. by rewrite length_map, length_seq. Qed.

Lemma ring_count_diag t : ring_count N t t = 0%nat.
Proof. unfold ring_count. by rewrite Z.sub_diag, Z.mod_0_l by lia. Qed.

Lemma ring_contents_diag buf t : ring_contents N buf t t = [].
Proof. unfold ring_contents. by rewrite ring_count_diag. Qed.

Lemma ring_count_lt h t : Z.of_nat (ring_count N h t) < N.
Proof.
  unfold ring_count. pose proof (Z.mod_pos_bound (h - t) N N_pos). lia.
Qed.

Lemma ring_count_zero h t :
  0 <= h < N -> 0 <= t < N -> ring_count N h t = 0%nat <-> h = t.
Proof.
  intros Hh Ht. unfold ring_count. split.
  - intros E. mod_window N; lia.
  - intros ->. by rewrite Z.sub_diag, Z.mod_0_l by lia.
Qed.

Lemma ring_full h t :
  0 <= h < N -> 0 <= t < N ->
  (h + 1) mod N = t <-> Z.of_nat (ring_count N h t) = N - 1.
Proof.
  intros Hh Ht. unfold ring_count. split; intros E; mod_window N; lia.
Qed.

Lemma ring_count_push h t :
  0 <= h < N -> 0 <= t < N -> (h + 1) mod N <> t ->
  ring_count N ((h + 1) mod N) t = S (ring_count N h t).
Proof. intros Hh Ht E. unfold ring_count. mod_window N; lia. Qed.

Lemma ring_count_pop h t :
  0 <= h < N -> 0 <= t < N -> h <> t ->
  ring_count N h t = S (ring_count N h ((t + 1) mod N)).
Proof. intros Hh Ht E. unfold ring_count. mod_window N; lia. Qed.

Lemma ring_slot_last h t :
  0 <= h < N -> 0 <= t < N -> ring_slot N t (ring_count N h t) = Z.to_nat h.
Proof.
  intros Hh Ht. unfold ring_slot, ring_count. f_equal.
  rewrite Z2Nat.id by (apply Z.mod_pos_bound; lia).
  mod_window N; lia.
Qed.

Lemma ring_slot_before h t k :
  0 <= h < N -> 0 <= t < N -> (k < ring_count N h t)%nat ->
  ring_slot N t k <> Z.to_nat h.
Proof.
  intros Hh Ht Hk. unfold ring_slot, ring_count in *.
  assert (Z.of_nat k < (h - t) mod N) as Hk'.
  { pose proof (Z.mod_pos_bound (h - t) N N_pos). lia. }
  clear Hk. intros E. apply Z2Nat.inj in E; [|apply Z.mod_pos_bound; lia|lia].
  mod_window N; lia.
Qed.

(** Storing at [head] and advancing it appends to the contents. *)
Lemma ring_push buf h t c :
  length buf = Z.to_nat N ->
  0 <= h < N -> 0 <= t < N -> (h + 1) mod N <> t ->
  ring_contents N (<[Z.to_nat h := c]> buf) ((h + 1) mod N) t
  = ring_contents N buf h t ++ [c].
Proof.
  intros Hlen Hh Ht Hroom. unfold ring_contents.
  rewrite ring_count_push by done.
  rewrite seq_S, map_app. simpl. f_equal.
  - apply map_ext_in. intros k Hk. apply in_seq in Hk.
    apply list_lookup_total_insert_ne.
    intros E. symmetry in E. revert E. apply ring_slot_before; [done|done|lia].
  - rewrite ring_slot_last by done.
    rewrite list_lookup_total_insert_eq; [done|lia].
Qed.

(** Advancing [tail] removes the oldest byte, which sits at [tail]. *)
Lemma ring_pop buf h t :
  0 <= h < N -> 0 <= t < N -> h <> t ->
  ring_contents N buf h t
  = buf !!! Z.to_nat t :: ring_contents N buf h ((t + 1) mod N).
Proof.
  intros Hh Ht Hne. unfold ring_contents.
  rewrite (ring_count_pop h t) by done.
  rewrite <- cons_seq, <- seq_shift, map_cons, map_map. f_equal.
  - unfold ring_slot. do 2 f_equal. change (Z.of_nat 0) with 0.
    rewrite Z.add_0_r. apply Z.mod_small; lia.
  - apply map_ext. intros k. unfold ring_slot. do 2 f_equal.
    rewrite Zplus_mod_idemp_l. f_equal. lia.
Qed.

End Ring.

(** ** Receive ring buffer *)

Lemma RX_BUFFER_SIZE_pos m : 1 < RX_BUFFER_SIZE m.
Proof. destruct m; reflexivity. Qed.

Lemma rx_init_valid m : Rx.valid m (Rx.init m).
Proof.
  pose proof (RX_BUFFER_SIZE_pos m).
  unfold Rx.valid, Rx.init; simpl. rewrite length_replicate. lia.
Qed.

Lemma rx_init_contents m : Rx.contents m (Rx.init m) = [].
Proof.
  pose proof (RX_BUFFER_SIZE_pos m).
  unfold Rx.contents, Rx.init; simpl. apply ring_contents_diag. lia.
Qed.

Lemma rx_contents_length m s : length (Rx.contents m s) = Rx.count m s.
Proof. apply ring_contents_length. Qed.

(** The interrupt on a full buffer: nothing changes. *)
Lemma USART_RX_vect_full m c s :
  Rx.valid m s ->
  Z.of_nat (Rx.count m s) = RX_BUFFER_SIZE m - 1 ->
  Rx.USART_RX_vect m c s = s.
Proof.
  intros (Hlen & Hh & Ht) Hfull. pose proof (RX_BUFFER_SIZE_pos m).
  apply ring_full in Hfull; [|lia|done|done].
  unfold Rx.USART_RX_vect. rewrite rem_succ_mod by lia.
  rewrite Hfull, Z.eqb_refl. done.
Qed.

(** The interrupt on a buffer with room: the byte is appended. *)
Lemma USART_RX_vect_room m c s :
  Rx.valid m s ->
  Z.of_nat (Rx.count m s) <> RX_BUFFER_SIZE m - 1 ->
  Rx.valid m (Rx.USART_RX_vect m c s)
  /\ Rx.rx_buffer_tail (Rx.USART_RX_vect m c s) = Rx.rx_buffer_tail s
  /\ Rx.contents m (Rx.USART_RX_vect m c s) = Rx.contents m s ++ [c].
Proof.
  intros (Hlen & Hh & Ht) Hroom. pose proof (RX_BUFFER_SIZE_pos m) as HN.
  assert ((Rx.rx_buffer_head s + 1) mod RX_BUFFER_SIZE m <> Rx.rx_buffer_tail s)
    as Hne.
  { intros E. apply Hroom. apply ring_full; [lia|done|done|done]. }
  unfold Rx.USART_RX_vect. rewrite rem_succ_mod by lia.
  destruct (Z.eqb_spec ((Rx.rx_buffer_head s + 1) mod RX_BUFFER_SIZE m)
              (Rx.rx_buffer_tail s)) as [E|_]; [done|]. simpl.
  split; [|split; [done|]].
  - unfold Rx.valid; simpl. rewrite length_insert.
    pose proof (Z.mod_pos_bound (Rx.rx_buffer_head s + 1) (RX_BUFFER_SIZE m)).
    lia.
  - unfold Rx.contents; simpl. apply ring_push; [lia|done..].
Qed.

Lemma rx_receive_all m l : forall s,
  Rx.valid m s ->
  Rx.valid m (Rx.receive_all m l s)
  /\ Rx.rx_buffer_tail (Rx.receive_all m l s) = Rx.rx_buffer_tail s
  /\ Rx.contents m (Rx.receive_all m l s)
     = Rx.contents m s
       ++ take (Z.to_nat (RX_BUFFER_SIZE m - 1) - length (Rx.contents m s)) l.
Proof.
  induction l as [|c l IH]; intros s Hs; simpl.
  - rewrite take_nil, app_nil_r. done.
  - pose proof (RX_BUFFER_SIZE_pos m) as HN.
    pose proof (ring_count_lt (RX_BUFFER_SIZE m) ltac:(lia)
                  (Rx.rx_buffer_head s) (Rx.rx_buffer_tail s)) as Hlt.
    fold (Rx.count m s) in Hlt.
    destruct (Z.eq_dec (Z.of_nat (Rx.count m s)) (RX_BUFFER_SIZE m - 1))
      as [Hfull|Hroom].
    + rewrite USART_RX_vect_full by done.
      destruct (IH s Hs) as (Hv & Htl & Hc). split; [done|split; [done|]].
      rewrite Hc, rx_contents_length.
      replace (Z.to_nat (RX_BUFFER_SIZE m - 1) - Rx.count m s)%nat with 0%nat
        by lia.
      done.
    + destruct (USART_RX_vect_room m c s Hs Hroom) as (Hv1 & Ht1 & Hc1).
      destruct (IH _ Hv1) as (Hv & Htl & Hc). split; [done|split; [congruence|]].
      rewrite Hc, Hc1, length_app, rx_contents_length. simpl.
      replace (Z.to_nat (RX_BUFFER_SIZE m - 1) - Rx.count m s)%nat
        with (S (Z.to_nat (RX_BUFFER_SIZE m - 1) - (Rx.count m s + 1)))%nat
        by lia.
      simpl. by rewrite <- app_assoc.
Qed.

(** Every operation of the receive side keeps the array length and both
    indices in range, so the total accessors never index outside the array. *)
Lemma rx_valid_preserved m s :
  Rx.valid m s ->
  Rx.valid m (snd (Rx.serialRead m s))
  /\ Rx.valid m (Rx.serialFlush s)
  /\ forall c, Rx.valid m (Rx.USART_RX_vect m c s).
Proof.
  intros Hs. pose proof Hs as (Hlen & Hh & Ht).
  pose proof (RX_BUFFER_SIZE_pos m) as HN.
  split; [|split].
  - unfold Rx.serialRead. destruct (Rx.serialAnyAvailable s); [done|].
    unfold Rx.valid; simpl. rewrite rem_succ_mod by lia.
    pose proof (Z.mod_pos_bound (Rx.rx_buffer_tail s + 1) (RX_BUFFER_SIZE m)).
    lia.
  - unfold Rx.valid, Rx.serialFlush; simpl. lia.
  - intros c.
    destruct (Z.eq_dec (Z.of_nat (Rx.count m s)) (RX_BUFFER_SIZE m - 1)).
    + by rewrite USART_RX_vect_full.
    + by apply USART_RX_vect_room.
Qed.

(** [serialRead] returns the sentinel exactly when the buffer is *not*
    empty: the test of line 128 has the opposite polarity of the comment on
    line 127. *)
Lemma serialRead_polarity m s :
  fst (Rx.serialRead m s) = Rx.EMPTY <-> Rx.serialAnyAvailable s = true.
Proof.
  unfold Rx.serialRead, Rx.EMPTY.
  destruct (Rx.serialAnyAvailable s); simpl; [done|].
  unfold byte_to_Z. split; [lia|done].
Qed.

(** C1 (the code departs from the claim).  One byte ['A'] has arrived in an
    empty buffer, so a byte is available and it sits at [storage[tail]]; yet
    [serialRead] returns the sentinel and does not advance [tail]. *)
Theorem serialRead_available_yields_EMPTY :
  forall m,
    let s := Rx.USART_RX_vect m "A" (Rx.init m) in
    Rx.serialAnyAvailable s = true
    /\ Rx.rx_buffer s !!! Z.to_nat (Rx.rx_buffer_tail s) = "A"%byte
    /\ Rx.serialRead m s = (Rx.EMPTY, s).
Proof. intros []; vm_compute; done. Qed.

(** C2 (the code departs from the claim).  Two bytes ['h'], ['i'] arrive in
    the empty buffer; the two following calls of [serialRead] both return the
    sentinel instead of 104 and 105, and the bytes stay in the buffer. *)
Theorem serialRead_loses_received_bytes :
  forall m,
    let s := Rx.receive_all m ["h"; "i"]%byte (Rx.init m) in
    Rx.contents m s = ["h"; "i"]%byte
    /\ Rx.read_n m 2 s = ([Rx.EMPTY; Rx.EMPTY], s).
Proof. intros []; vm_compute; done. Qed.

(** C3, as the claim states it, fails: after one received byte ([head = 1],
    [tail = 0]) the flush leaves [tail] at 0 and moves [head] instead. *)
Lemma serialFlush_does_not_move_tail :
  ~ (Rx.rx_buffer_tail
       (Rx.serialFlush (Rx.USART_RX_vect OtherAVR "A" (Rx.init OtherAVR)))
     = Rx.rx_buffer_head (Rx.USART_RX_vect OtherAVR "A" (Rx.init OtherAVR))
     /\ Rx.rx_buffer_head
          (Rx.serialFlush (Rx.USART_RX_vect OtherAVR "A" (Rx.init OtherAVR)))
        = Rx.rx_buffer_head (Rx.USART_RX_vect OtherAVR "A" (Rx.init OtherAVR))).
Proof. intros [E _]. vm_compute in E. discriminate E. Qed.

(** C3, amended.  [serialFlush] empties the receive buffer by assigning
    [head := tail]: afterwards [head] equals the value [tail] had at entry,
    [tail] and the array are unchanged, and nothing is available. *)
Theorem serialFlush_head_follows_tail :
  forall s,
    Rx.rx_buffer_head (Rx.serialFlush s) = Rx.rx_buffer_tail s
    /\ Rx.rx_buffer_tail (Rx.serialFlush s) = Rx.rx_buffer_tail s
    /\ Rx.rx_buffer (Rx.serialFlush s) = Rx.rx_buffer s
    /\ Rx.serialAnyAvailable (Rx.serialFlush s) = false.
Proof.
  intros s. unfold Rx.serialFlush, Rx.serialAnyAvailable; simpl.
  by rewrite Z.eqb_refl.
Qed.

(** C4.  Bytes delivered to the receive interrupt with no read in between
    are appended in arrival order until the buffer holds
    [RX_BUFFER_SIZE - 1] of them; [tail] never moves and the indices stay in
    range; once [RX_BUFFER_SIZE - 1] bytes are held, a further interrupt
    leaves the whole state (head, tail and every stored byte) as it is. *)
Theorem USART_RX_vect_overflow_policy m s l :
  Rx.valid m s ->
  let s' := Rx.receive_all m l s in
  let room := (Z.to_nat (RX_BUFFER_SIZE m - 1) - length (Rx.contents m s))%nat in
  Rx.valid m s'
  /\ Rx.rx_buffer_tail s' = Rx.rx_buffer_tail s
  /\ Rx.contents m s' = Rx.contents m s ++ take room l
  /\ ((room <= length l)%nat ->
      Z.of_nat (length (Rx.contents m s')) = RX_BUFFER_SIZE m - 1)
  /\ (Z.of_nat (length (Rx.contents m s')) = RX_BUFFER_SIZE m - 1 ->
      forall c, Rx.USART_RX_vect m c s' = s').
Proof.
  intros Hs s' room. pose proof (RX_BUFFER_SIZE_pos m) as HN.
  destruct (rx_receive_all m l s Hs) as (Hv & Ht & Hc).
  split; [done|split; [done|split; [done|split]]].
  - intros Hroom. subst s'. rewrite Hc, length_app, length_take.
    pose proof (ring_count_lt (RX_BUFFER_SIZE m) ltac:(lia)
                  (Rx.rx_buffer_head s) (Rx.rx_buffer_tail s)) as Hlt.
    fold (Rx.count m s) in Hlt. subst room.
    rewrite rx_contents_length in *. lia.
  - intros Hfull c. apply USART_RX_vect_full; [done|].
    by rewrite <- rx_contents_length.
Qed.

Lemma USART_RX_vect_overflow_policy_witness :
  Rx.valid OtherAVR (Rx.init OtherAVR)
  /\ Rx.contents OtherAVR
       (Rx.receive_all OtherAVR ["a"; "b"; "c"]%byte (Rx.init OtherAVR))
     = ["a"; "b"; "c"]%byte.
Proof.
  assert (Rx.valid OtherAVR (Rx.init OtherAVR)) as Hv
    by (unfold Rx.valid; simpl; lia).
  split; [exact Hv|].
  destruct (USART_RX_vect_overflow_policy OtherAVR (Rx.init OtherAVR)
              ["a"; "b"; "c"]%byte Hv) as (_ & _ & Hc & _).
  rewrite Hc. reflexivity.
Defined.

(** C9.  A call of [serialRead] on an empty buffer returns whatever byte is
    stored at [storage[tail]] and moves [tail] one past [head]; afterwards
    [serialAnyAvailable] answers true, the buffer counts
    [RX_BUFFER_SIZE - 1] bytes, and the receive interrupt treats it as full. *)
Theorem serialRead_on_empty_buffer m s :
  Rx.valid m s ->
  Rx.rx_buffer_head s = Rx.rx_buffer_tail s ->
  let r := fst (Rx.serialRead m s) in
  let s' := snd (Rx.serialRead m s) in
  r = byte_to_Z (Rx.rx_buffer s !!! Z.to_nat (Rx.rx_buffer_tail s))
  /\ Rx.rx_buffer_tail s' = (Rx.rx_buffer_tail s + 1) mod RX_BUFFER_SIZE m
  /\ Rx.rx_buffer_head s' = Rx.rx_buffer_head s
  /\ Rx.rx_buffer s' = Rx.rx_buffer s
  /\ Rx.serialAnyAvailable s' = true
  /\ Z.of_nat (Rx.count m s') = RX_BUFFER_SIZE m - 1
  /\ forall c, Rx.USART_RX_vect m c s' = s'.
Proof.
  intros (Hlen & Hh & Ht) Heq r s'. pose proof (RX_BUFFER_SIZE_pos m) as HN.
  subst r s'. unfold Rx.serialRead, Rx.serialAnyAvailable.
  rewrite Heq, Z.eqb_refl. simpl. rewrite rem_succ_mod by lia.
  set (t := Rx.rx_buffer_tail s) in *.
  set (N := RX_BUFFER_SIZE m) in *.
  assert (Z.of_nat (ring_count N t ((t + 1) mod N)) = N - 1) as Hcount.
  { unfold ring_count. mod_window N; lia. }
  split; [done|split; [done|split; [done|split; [done|split; [|split]]]]].
  - destruct (Z.eqb_spec t ((t + 1) mod N)) as [E|]; [|done].
    exfalso. mod_window N; lia.
  - done.
  - intros c. apply USART_RX_vect_full.
    + unfold Rx.valid; simpl. fold N.
      pose proof (Z.mod_pos_bound (t + 1) N). lia.
    + done.
Qed.

Lemma serialRead_on_empty_buffer_witness :
  Rx.valid OtherAVR (Rx.init OtherAVR)
  /\ Rx.rx_buffer_head (Rx.init OtherAVR) = Rx.rx_buffer_tail (Rx.init OtherAVR)
  /\ Rx.serialAnyAvailable (snd (Rx.serialRead OtherAVR (Rx.init OtherAVR))) = true
  /\ Z.of_nat (Rx.count OtherAVR (snd (Rx.serialRead OtherAVR (Rx.init OtherAVR))))
     = RX_BUFFER_SIZE OtherAVR - 1.
Proof.
  assert (Rx.valid OtherAVR (Rx.init OtherAVR)) as Hv
    by (unfold Rx.valid; simpl; lia).
  split; [exact Hv|]. split; [reflexivity|].
  destruct (serialRead_on_empty_buffer OtherAVR (Rx.init OtherAVR) Hv eq_refl)
    as (_ & _ & _ & _ & Ha & Hc & _).
  split; [exact Ha | exact Hc].
Defined.

(** ** Register bits *)

Lemma uchar_testbit r j :
  Z.testbit (uchar r) j = (j <? 8) && Z.testbit r j.
Proof. unfold uchar. change 256 with (2 ^ 8). apply Z.testbit_mod_pow2. lia. Qed.

Lemma bit_mask_testbit n j : 0 <= n -> Z.testbit (Z.shiftl 1 n) j = (n =? j).
Proof.
  intros Hn. rewrite Z.shiftl_1_l.
  destruct (Z_lt_dec j 0) as [Hj|Hj].
  - rewrite Z.testbit_neg_r by lia. symmetry. apply Z.eqb_neq. lia.
  - apply Z.pow2_bits_eqb. lia.
Qed.

Lemma set_bit_testbit r n j :
  0 <= n ->
  Z.testbit (uchar (Z.lor r (Z.shiftl 1 n))) j
  = (j <? 8) && (Z.testbit r j || (n =? j)).
Proof.
  intros Hn. by rewrite uchar_testbit, Z.lor_spec, bit_mask_testbit.
Qed.

Lemma clear_bit_testbit r n j :
  0 <= n ->
  Z.testbit (uchar (Z.land r (Z.lnot (Z.shiftl 1 n)))) j
  = (j <? 8) && Z.testbit r j && negb (n =? j).
Proof.
  intros Hn. rewrite uchar_testbit, Z.land_spec.
  destruct (Z_lt_dec j 0) as [Hj|Hj].
  - rewrite !(Z.testbit_neg_r _ j) by lia. by destruct (j <? 8).
  - rewrite Z.lnot_spec, bit_mask_testbit by lia. by rewrite andb_assoc.
Qed.

Lemma flag_test r n :
  0 <= n -> (Z.land r (Z.shiftl 1 n) =? 0) = negb (Z.testbit r n).
Proof.
  intros Hn. destruct (Z.testbit r n) eqn:Hb; simpl.
  - apply Z.eqb_neq. intros E.
    assert (Z.testbit (Z.land r (Z.shiftl 1 n)) n = true) as Hbit.
    { by rewrite Z.land_spec, bit_mask_testbit, Hb, Z.eqb_refl. }
    rewrite E, Z.bits_0 in Hbit. discriminate.
  - apply Z.eqb_eq, Z.bits_inj'. intros j Hj.
    rewrite Z.land_spec, bit_mask_testbit, Z.bits_0 by done.
    destruct (Z.eqb_spec n j) as [->|]; [by rewrite Hb|apply andb_false_r].
Qed.

(** ** Transmit ring buffer and arming bit *)

Lemma tx_wrap x : Z.rem (uchar (x + 1)) TX_BUFFER_SIZE = (x + 1) mod TX_BUFFER_SIZE.
Proof.
  unfold uchar, TX_BUFFER_SIZE.
  rewrite Z.rem_mod_nonneg by (pose proof (Z.mod_pos_bound (x + 1) 256); lia).
  apply Z.mod_mod_divide. exists 16. reflexivity.
Qed.

Lemma tx_init_valid : Tx.valid Tx.init.
Proof. unfold Tx.valid, TX_BUFFER_SIZE; simpl. lia. Qed.

Lemma armed_arm s : Tx.armed (Tx.arm s) = true.
Proof.
  unfold Tx.armed, Tx.arm. cbn [Tx.UCSR0B]. rewrite set_bit_testbit by done.
  rewrite Z.eqb_refl. apply orb_true_r.
Qed.

Lemma pending_arm s : Tx.pending (Tx.arm s) = Tx.pending s.
Proof. done. Qed.

Lemma enqueue_spec c s :
  Tx.valid s ->
  Tx.next_head s <> Tx.tx_buffer_tail s ->
  let s' := Tx.enqueue c (Tx.next_head s) s in
  Tx.valid s'
  /\ Tx.pending s' = Tx.pending s ++ [c]
  /\ Tx.UDR0 s' = Tx.UDR0 s
  /\ Tx.tx_buffer_tail s' = Tx.tx_buffer_tail s
  /\ Tx.tx_buffer_head s' = Tx.next_head s
  /\ Tx.armed s' = true.
Proof.
  intros (Hlen & Hh & Ht) Hroom s'. subst s'.
  unfold Tx.enqueue. rewrite armed_arm, pending_arm.
  unfold Tx.next_head in *. rewrite tx_wrap in *.
  split; [|split; [|done]].
  - unfold Tx.valid; simpl. rewrite length_insert.
    pose proof (Z.mod_pos_bound (Tx.tx_buffer_head s + 1) TX_BUFFER_SIZE).
    unfold TX_BUFFER_SIZE in *. lia.
  - unfold Tx.pending; simpl. apply ring_push; done.
Qed.

Lemma USART_UDRE_vect_spec s :
  Tx.valid s ->
  Tx.tx_buffer_head s <> Tx.tx_buffer_tail s ->
  let s' := Tx.USART_UDRE_vect s in
  Tx.valid s'
  /\ Tx.UDR0 s' ++ Tx.pending s' = Tx.UDR0 s ++ Tx.pending s
  /\ Tx.tx_buffer_head s' = Tx.tx_buffer_head s
  /\ length (Tx.pending s) = S (length (Tx.pending s'))
  /\ Tx.armed s'
     = Tx.armed s && negb (Tx.tx_buffer_head s' =? Tx.tx_buffer_tail s').
Proof.
  intros (Hlen & Hh & Ht) Hne s'. subst s'.
  set (t' := (Tx.tx_buffer_tail s + 1) mod TX_BUFFER_SIZE).
  assert (0 <= t' < TX_BUFFER_SIZE) as Ht'
    by (apply Z.mod_pos_bound; reflexivity).
  assert (Tx.pending s
          = Tx.tx_buffer s !!! Z.to_nat (Tx.tx_buffer_tail s)
            :: ring_contents TX_BUFFER_SIZE (Tx.tx_buffer s)
                 (Tx.tx_buffer_head s) t') as Hpop.
  { apply ring_pop; done. }
  assert (Tx.pending (Tx.USART_UDRE_vect s)
          = ring_contents TX_BUFFER_SIZE (Tx.tx_buffer s)
              (Tx.tx_buffer_head s) t') as Hrest.
  { unfold Tx.pending, Tx.USART_UDRE_vect.
    cbn [Tx.tx_buffer Tx.tx_buffer_head Tx.tx_buffer_tail].
    by rewrite tx_wrap. }
  rewrite Hrest, Hpop. unfold Tx.USART_UDRE_vect, Tx.armed.
  cbn [Tx.tx_buffer Tx.tx_buffer_head Tx.tx_buffer_tail Tx.UCSR0B Tx.UDR0].
  rewrite tx_wrap. fold t'.
  split; [done|]. split; [by rewrite <- app_assoc|].
  split; [done|]. split; [done|].
  rewrite (Z.eqb_sym (Tx.tx_buffer_head s)).
  destruct (t' =? Tx.tx_buffer_head s).
  - rewrite clear_bit_testbit by done.
    rewrite Z.eqb_refl. cbn [negb]. by rewrite !andb_false_r.
  - by rewrite andb_true_r.
Qed.

(** C6.  One run of the data-register-empty interrupt stores
    [tx_buffer[tail]] into UDR0, advances [tail] to
    [(tail + 1) mod TX_BUFFER_SIZE], leaves [head] and the array alone, and
    touches UCSR0B exactly when the advanced [tail] equals [head], in which
    case it clears UDRIE0 and no other bit of the register. *)
Theorem USART_UDRE_vect_effect :
  forall s,
    let s' := Tx.USART_UDRE_vect s in
    let emptied := Tx.tx_buffer_tail s' =? Tx.tx_buffer_head s in
    Tx.UDR0 s' = Tx.UDR0 s ++ [Tx.tx_buffer s !!! Z.to_nat (Tx.tx_buffer_tail s)]
    /\ Tx.tx_buffer_tail s' = (Tx.tx_buffer_tail s + 1) mod TX_BUFFER_SIZE
    /\ Tx.tx_buffer_head s' = Tx.tx_buffer_head s
    /\ Tx.tx_buffer s' = Tx.tx_buffer s
    /\ Tx.armed s' = Tx.armed s && negb emptied
    /\ (if emptied
        then forall j, Z.testbit (Tx.UCSR0B s') j
                       = (j <? 8) && Z.testbit (Tx.UCSR0B s) j && negb (UDRIE0 =? j)
        else Tx.UCSR0B s' = Tx.UCSR0B s).
Proof.
  intros s s' emptied. subst s' emptied.
  unfold Tx.USART_UDRE_vect, Tx.armed.
  cbn [Tx.tx_buffer Tx.tx_buffer_head Tx.tx_buffer_tail Tx.UCSR0B Tx.UDR0].
  rewrite tx_wrap.
  split; [done|split; [done|split; [done|split; [done|]]]].
  destruct ((Tx.tx_buffer_tail s + 1) mod TX_BUFFER_SIZE =? Tx.tx_buffer_head s).
  - split.
    + rewrite clear_bit_testbit by done.
      rewrite Z.eqb_refl. cbn [negb]. by rewrite !andb_false_r.
    + intros j. by apply clear_bit_testbit.
  - split; [by rewrite andb_true_r|done].
Qed.

(** C7.  With UDRE0 set in UCSR0A and an empty transmit buffer,
    [serialWrite] returns at once having stored the byte straight into UDR0;
    [head], [tail], the array and UCSR0B are untouched, so the buffer is
    empty afterwards as it was before. *)
Theorem serialWrite_fast_path ucsr0a c s :
  Z.testbit ucsr0a UDRE0 = true ->
  Tx.tx_buffer_head s = Tx.tx_buffer_tail s ->
  exists s',
    Tx.serialWrite ucsr0a c s = Tx.Returned s'
    /\ Tx.UDR0 s' = Tx.UDR0 s ++ [c]
    /\ Tx.tx_buffer_head s' = Tx.tx_buffer_head s
    /\ Tx.tx_buffer_tail s' = Tx.tx_buffer_tail s
    /\ Tx.tx_buffer s' = Tx.tx_buffer s
    /\ Tx.UCSR0B s' = Tx.UCSR0B s
    /\ Tx.pending s = []
    /\ Tx.pending s' = [].
Proof.
  intros Hready Hempty. exists (Tx.write_UDR0 c s).
  unfold Tx.serialWrite, Tx.use_buffer.
  rewrite flag_test, Hready, Hempty, Z.eqb_refl by done. cbn [negb orb].
  unfold Tx.pending, Tx.write_UDR0.
  cbn [Tx.tx_buffer Tx.tx_buffer_head Tx.tx_buffer_tail Tx.UCSR0B Tx.UDR0].
  rewrite Hempty, ring_contents_diag by done. done.
Qed.

Lemma serialWrite_fast_path_witness :
  Z.testbit 32 UDRE0 = true
  /\ Tx.tx_buffer_head Tx.init = Tx.tx_buffer_tail Tx.init
  /\ exists s',
       Tx.serialWrite 32 "x" Tx.init = Tx.Returned s'
       /\ Tx.UDR0 s' = ["x"%byte]
       /\ Tx.tx_buffer_head s' = 0
       /\ Tx.tx_buffer_tail s' = 0.
Proof.
  split; [reflexivity|]. split; [reflexivity|].
  destruct (serialWrite_fast_path 32 "x" Tx.init eq_refl eq_refl)
    as (s' & Hw & Hu & Hh & Ht & _).
  exists s'. split; [exact Hw|]. split; [exact Hu|]. split; [exact Hh|exact Ht].
Defined.

(** *** [serialWrite] preempted by the interrupt *)

Lemma store_then_advance c newhead s :
  Tx.advance_head newhead (Tx.store_byte c s) = Tx.store_and_advance c newhead s.
Proof. reflexivity. Qed.

(** A call that no interrupt preempts takes the foreground steps to the
    state [Tx.serialWrite] computes. *)
Lemma serialWrite_steps ucsr0a c s s' i w :
  Tx.serialWrite ucsr0a c s = Tx.Returned s' ->
  exists i',
    rtc Tx.step (Tx.cfg s Tx.Idle i w) (Tx.cfg s' Tx.Idle i' (w ++ [c])).
Proof.
  intros Hw. unfold Tx.serialWrite in Hw.
  destruct (Tx.use_buffer ucsr0a s) eqn:Hub.
  - destruct (Z.eqb_spec (Tx.next_head s) (Tx.tx_buffer_tail s)) as [|Hne];
      [discriminate|].
    injection Hw as <-. exists true.
    eapply rtc_l; [apply (Tx.step_call ucsr0a c)|]. rewrite Hub.
    eapply rtc_l; [by apply Tx.step_wait|].
    eapply rtc_l; [apply Tx.step_store|].
    eapply rtc_l; [apply Tx.step_advance|].
    eapply rtc_l; [apply Tx.step_sei|].
    eapply rtc_l; [apply Tx.step_arm|].
    apply rtc_refl.
  - injection Hw as <-. exists i.
    eapply rtc_l; [apply (Tx.step_call ucsr0a c)|]. rewrite Hub.
    eapply rtc_l; [apply Tx.step_direct|].
    apply rtc_refl.
Qed.

Lemma USART_UDRE_vect_valid s : Tx.valid s -> Tx.valid (Tx.USART_UDRE_vect s).
Proof.
  intros (Hlen & Hh & Ht). unfold Tx.valid, Tx.USART_UDRE_vect.
  cbn [Tx.tx_buffer Tx.tx_buffer_head Tx.tx_buffer_tail]. rewrite tx_wrap.
  pose proof (Z.mod_pos_bound (Tx.tx_buffer_tail s + 1) TX_BUFFER_SIZE).
  unfold TX_BUFFER_SIZE in *. lia.
Qed.

Lemma call_progress_step k k' :
  Tx.call_progress k -> Tx.step k k' -> Tx.call_progress k'.
Proof.
  intros [Hv Hpc] Hstep.
  destruct Hstep as [a c s i w | c nh s i w Hroom | c nh s i w | c nh s i w
                    | c nh s i w | c nh s i w | c s i w | s p w Hon];
    unfold Tx.call_progress in *; cbn [Tx.hw Tx.at_pc] in *.
  - split; [done|]. by destruct (Tx.use_buffer a s).
  - done.
  - pose proof Hv as (Hlen & Hh & Ht). split.
    { unfold Tx.valid, Tx.store_byte.
      cbn [Tx.tx_buffer Tx.tx_buffer_head Tx.tx_buffer_tail].
      by rewrite length_insert. }
    split; [done|].
    unfold Tx.store_byte. cbn [Tx.tx_buffer Tx.tx_buffer_head].
    apply list_lookup_total_insert_eq. unfold TX_BUFFER_SIZE in *. lia.
  - pose proof Hv as (Hlen & Hh & Ht). destruct Hpc as [-> Hc].
    unfold Tx.next_head. rewrite tx_wrap.
    assert (((Tx.tx_buffer_head s + 1) mod TX_BUFFER_SIZE - 1) mod TX_BUFFER_SIZE
            = Tx.tx_buffer_head s) as Hback.
    { unfold TX_BUFFER_SIZE in *. mod_window 16; lia. }
    split.
    + unfold Tx.valid, Tx.advance_head.
      cbn [Tx.tx_buffer Tx.tx_buffer_head Tx.tx_buffer_tail].
      pose proof (Z.mod_pos_bound (Tx.tx_buffer_head s + 1) TX_BUFFER_SIZE).
      unfold TX_BUFFER_SIZE in *. lia.
    + unfold Tx.advance_head. cbn [Tx.tx_buffer Tx.tx_buffer_head].
      by rewrite Hback.
  - done.
  - split; [exact Hv|done].
  - split; [exact Hv|done].
  - split; [by apply USART_UDRE_vect_valid|].
    destruct p; try done; unfold Tx.next_head in *; exact Hpc.
Qed.

(** In every reachable configuration, preemption included, the indices
    are in range, and a call standing in front of line 87 or line 88 has
    already stored its byte in the slot before [newhead] and set [head] to
    [newhead]: the arming of line 88 never precedes the store or the update
    of [head]. *)
Lemma call_progress_reachable k : Tx.reachable k -> Tx.call_progress k.
Proof.
  unfold Tx.reachable. revert k. apply rtc_ind_r.
  - split; [apply tx_init_valid|done].
  - intros k1 k2 _ Hstep IH. by apply (call_progress_step k1).
Qed.

(** C5 (the code departs from the claim).  ['a'] and ['b'] are written
    while the data register is busy.  The second call is preempted after
    the [sei] of line 87 and before line 88 by two runs of the interrupt
    routine, which send ['a'] and ['b'] and clear UDRIE0; line 88 then sets
    UDRIE0 although [head = tail].  No call is in progress, both written
    bytes have been sent once, yet the interrupt stays enabled on an empty
    buffer, and its next 16 runs send the whole array: 18 bytes reach UDR0
    for 2 written. *)
Theorem serialWrite_preempted_before_arming :
  let s := Tx.arm (TxRun.drain 2
             (Tx.store_and_advance "b" 2 (Tx.enqueue "a" 1 Tx.init))) in
  Tx.reachable (Tx.cfg s Tx.Idle true ["a"; "b"]%byte)
  /\ Tx.UDR0 s = ["a"; "b"]%byte
  /\ Tx.tx_buffer_head s = Tx.tx_buffer_tail s
  /\ Tx.armed s = true
  /\ Tx.reachable (Tx.cfg (TxRun.drain 16 s) Tx.Idle true ["a"; "b"]%byte)
  /\ Tx.UDR0 (TxRun.drain 16 s)
     = (["a"; "b"] ++ replicate 14 x00 ++ ["a"; "b"])%byte.
Proof.
  intros s.
  assert (Tx.reachable (Tx.cfg s Tx.Idle true ["a"; "b"]%byte)) as Hbad.
  { unfold Tx.reachable, Tx.start.
    eapply rtc_l; [apply (Tx.step_call 0 "a")|].
    eapply rtc_l; [apply Tx.step_wait; discriminate|].
    eapply rtc_l; [apply Tx.step_store|].
    eapply rtc_l; [apply Tx.step_advance|].
    eapply rtc_l; [apply Tx.step_sei|].
    eapply rtc_l; [apply Tx.step_arm|].
    eapply rtc_l; [apply (Tx.step_call 0 "b")|].
    eapply rtc_l; [apply Tx.step_wait; discriminate|].
    eapply rtc_l; [apply Tx.step_store|].
    eapply rtc_l; [apply Tx.step_advance|].
    eapply rtc_l; [apply Tx.step_sei|].
    eapply rtc_l; [apply Tx.step_drain; reflexivity|].
    eapply rtc_l; [apply Tx.step_drain; reflexivity|].
    eapply rtc_l; [apply Tx.step_arm|].
    apply rtc_refl. }
  split; [exact Hbad|]. split; [reflexivity|]. split; [reflexivity|].
  split; [reflexivity|]. split; [|reflexivity].
  unfold Tx.reachable in *. etrans; [exact Hbad|].
  do 16 (eapply rtc_l; [apply Tx.step_drain; reflexivity|]).
  apply rtc_refl.
Qed.

(** ** Printing integers *)

Lemma digit_loop_step fuel n base buf i :
  Print.digit_loop (S fuel) n base buf i
  = if n >? 0 then
      if base =? 0 then Print.Undefined
      else if (Print.BUF_LEN <=? i)%nat then Print.Undefined
      else Print.digit_loop fuel (n / base) base
             (<[i := uchar (n mod base)]> buf) (S i)
    else Print.Done (buf, i).
Proof. reflexivity. Qed.

Lemma digit_loop_zero fuel base buf i :
  Print.digit_loop fuel 0 base buf i = Print.Done (buf, i).
Proof. destruct fuel; reflexivity. Qed.

(** A run that finishes keeps its result when given more fuel. *)
Lemma digit_loop_fuel_mono fuel : forall fuel' n base buf i r,
  (fuel <= fuel')%nat ->
  Print.digit_loop fuel n base buf i = Print.Done r ->
  Print.digit_loop fuel' n base buf i = Print.Done r.
Proof.
  induction fuel as [|fuel IH]; intros fuel' n base buf i r Hle Hrun.
  - simpl in Hrun. destruct (n >? 0) eqn:Hn; [discriminate|].
    destruct fuel'; simpl; by rewrite Hn.
  - destruct fuel' as [|fuel']; [lia|].
    rewrite digit_loop_step in *.
    destruct (n >? 0); [|done].
    destruct (base =? 0); [done|].
    destruct (Print.BUF_LEN <=? i)%nat; [done|].
    apply (IH fuel'); [lia|done].
Qed.

Section Digits.
Variable base : Z.
Hypothesis base_ge_2 : 2 <= base.

Lemma lsd_digits_length k n : (length (Print.lsd_digits k n base) <= k)%nat.
Proof.
  revert n. induction k as [|k IH]; intros n; simpl; [lia|].
  destruct (n >? 0); simpl; [|lia]. specialize (IH (n / base)). lia.
Qed.

Lemma halving k n : 0 < n < 2 ^ Z.of_nat (S k) -> 0 <= n / base < 2 ^ Z.of_nat k.
Proof.
  intros Hn. rewrite Nat2Z.inj_succ, Z.pow_succ_r in Hn by lia.
  split; [apply Z.div_pos; lia|].
  apply Z.div_lt_upper_bound; [lia|]. nia.
Qed.

Lemma lsd_digits_range k n :
  0 <= n -> Forall (fun d => 0 <= d < base) (Print.lsd_digits k n base).
Proof.
  revert n. induction k as [|k IH]; intros n Hn; simpl; [constructor|].
  destruct (n >? 0); [|constructor]. constructor.
  - apply Z.mod_pos_bound. lia.
  - apply IH, Z.div_pos; lia.
Qed.

(** Read most-significant-first, the digits denote [n]. *)
Lemma lsd_digits_value k n :
  0 <= n < 2 ^ Z.of_nat k ->
  Print.digits_value base (rev (Print.lsd_digits k n base)) = n.
Proof.
  unfold Print.digits_value.
  rewrite <- (fold_left_rev_right (fun d acc => acc * base + d)).
  rewrite rev_involutive.
  revert n. induction k as [|k IH]; intros n Hn; simpl.
  - change (2 ^ Z.of_nat 0) with 1 in Hn. lia.
  - destruct (Z.gtb_spec n 0) as [Hpos|Hz]; simpl; [|lia].
    rewrite IH by (apply halving; lia).
    pose proof (Z.div_mod n base). lia.
Qed.

(** The most significant digit is not zero. *)
Lemma lsd_digits_msd k n :
  0 <= n < 2 ^ Z.of_nat k ->
  head (rev (Print.lsd_digits k n base)) <> Some 0.
Proof.
  revert n. induction k as [|k IH]; intros n Hn; simpl; [done|].
  destruct (Z.gtb_spec n 0) as [Hpos|Hz]; simpl; [|done].
  specialize (IH (n / base) (halving k n ltac:(lia))).
  destruct (rev (Print.lsd_digits k (n / base) base)) as [|d ds] eqn:E; [|done].
  simpl. intros [= Hd].
  assert (Print.lsd_digits k (n / base) base = []) as Enil.
  { apply (f_equal (@rev Z)) in E. by rewrite rev_involutive in E. }
  assert (n / base = 0) as Hq.
  { destruct k as [|k']; simpl in Enil.
    - pose proof (halving 0 n ltac:(lia)) as Hh.
      change (2 ^ Z.of_nat 0) with 1 in Hh. lia.
    - destruct (Z.gtb_spec (n / base) 0); [discriminate|].
      pose proof (halving (S k') n ltac:(lia)). lia. }
  pose proof (Z.div_mod n base). lia.
Qed.

(** The loop terminates without leaving the array as soon as the digits
    fit behind [i], and leaves them in slots [i], [i+1], ... *)
Lemma digit_loop_spec k : forall fuel n buf i,
  0 <= n < 2 ^ Z.of_nat k ->
  let ds := Print.lsd_digits k n base in
  (length ds <= fuel)%nat ->
  (i + length ds <= Print.BUF_LEN)%nat ->
  length buf = Print.BUF_LEN ->
  exists buf',
    Print.digit_loop fuel n base buf i = Print.Done (buf', (i + length ds)%nat)
    /\ length buf' = Print.BUF_LEN
    /\ take (i + length ds) buf' = take i buf ++ map uchar ds.
Proof.
  induction k as [|k IH]; intros fuel n buf i Hn ds Hfuel Hfit Hlen; subst ds.
  - change (2 ^ Z.of_nat 0) with 1 in Hn. assert (n = 0) as -> by lia.
    exists buf. rewrite digit_loop_zero. simpl.
    rewrite Nat.add_0_r, app_nil_r. done.
  - cbn [Print.lsd_digits] in *. destruct (Z.gtb_spec n 0) as [Hpos|Hz].
    + cbn [length] in *. destruct fuel as [|fuel]; [lia|].
      rewrite digit_loop_step, (proj2 (Z.gtb_lt n 0)) by lia.
      destruct (Z.eqb_spec base 0) as [|_]; [lia|].
      destruct (Nat.leb_spec Print.BUF_LEN i) as [|Hi]; [lia|].
      destruct (IH fuel (n / base) (<[i := uchar (n mod base)]> buf) (S i))
        as (buf' & Hrun & Hlen' & Htake).
      * apply halving; lia.
      * lia.
      * lia.
      * by rewrite length_insert.
      * exists buf'. rewrite Nat.add_succ_r.
        change (S (i + ?x)) with (S i + x)%nat.
        split; [exact Hrun|]. split; [done|].
        rewrite Htake.
        rewrite (take_S_r _ _ (uchar (n mod base)))
          by (apply list_lookup_insert_eq; lia).
        rewrite take_insert_ge by lia. by rewrite <- app_assoc.
    + exists buf. assert (n = 0) as -> by lia.
      rewrite digit_loop_zero. simpl. rewrite Nat.add_0_r, app_nil_r. done.
Qed.

End Digits.

Lemma print_loop_rev buf i :
  (i <= length buf)%nat ->
  Print.print_loop buf i = map Print.digit_char (rev (take i buf)).
Proof.
  induction i as [|i IH]; intros Hi; simpl; [done|].
  assert (buf !! i = Some (buf !!! i)) as Hlk.
  { apply list_lookup_lookup_total_lt. lia. }
  rewrite (take_S_r _ _ _ Hlk), rev_unit, map_cons, IH by lia. done.
Qed.

Lemma ULONG_MOD_pow : Print.ULONG_MOD = 2 ^ Z.of_nat Print.BUF_LEN.
Proof. reflexivity. Qed.

(** What [printIntegerInBase] prints for a non-zero argument, whatever the
    initial contents of its local array. *)
Lemma printIntegerInBase_from_digits buf0 fuel n base :
  length buf0 = Print.BUF_LEN ->
  0 < n < Print.ULONG_MOD ->
  2 <= base ->
  let ds := Print.lsd_digits Print.BUF_LEN n base in
  (length ds <= fuel)%nat ->
  Print.digit_loop fuel n base buf0 0 <> Print.OutOfFuel
  /\ Print.digit_loop fuel n base buf0 0 <> Print.Undefined
  /\ Print.printIntegerInBase_from buf0 fuel n base
     = Print.Done (map Print.digit_char (rev (map uchar ds))).
Proof.
  intros Hlen Hn Hbase ds Hfuel. rewrite ULONG_MOD_pow in Hn.
  pose proof (lsd_digits_length base Print.BUF_LEN n) as Hds. fold ds in Hds.
  destruct (digit_loop_spec base Hbase Print.BUF_LEN fuel n buf0 0)
    as (buf' & Hrun & Hlen' & Htake); [lia|done|done|done|].
  fold ds in Hrun, Htake. rewrite Nat.add_0_l in Hrun, Htake.
  unfold Print.printIntegerInBase_from.
  destruct (Z.eqb_spec n 0) as [|_]; [lia|].
  rewrite Hrun. split; [done|]. split; [done|].
  rewrite print_loop_rev by lia. by rewrite Htake, take_0.
Qed.

Lemma digit_char_symbol d :
  0 <= d < 36 -> Print.digit_char (uchar d) = Print.digit_symbol d.
Proof.
  intros Hd. rewrite <- (Z2Nat.id d) by lia.
  assert (Z.to_nat d < 36)%nat as Hk by lia.
  generalize dependent (Z.to_nat d). clear d Hd. intros k Hk.
  do 36 (destruct k as [|k]; [reflexivity|]). lia.
Qed.

Lemma digit_chars_symbols base ds :
  base <= 36 ->
  Forall (fun d => 0 <= d < base) ds ->
  map Print.digit_char (map uchar ds) = map Print.digit_symbol ds.
Proof.
  intros Hbase. induction 1 as [|d ds Hd _ IH]; simpl; [done|].
  rewrite IH, digit_char_symbol by lia. done.
Qed.

(** C8.  [printInteger(-42)] passes ['-'], ['4'], ['2'] to [printByte] and
    [printIntegerInBase(255, 16)] passes ['F'], ['F']; for [n > 0] and a
    base from 2 to 36, [printIntegerInBase(n, base)] prints the symbols of
    a digit string [ms] over ['0'-'9'], ['A'-'Z'] whose digits are below the
    base, whose leading digit is not zero and whose positional value,
    most significant digit first, is [n]; for [n = 0] it prints the single
    byte ['0']. *)
Theorem printIntegerInBase_digits fuel n base :
  (Print.BUF_LEN <= fuel)%nat ->
  0 < n < Print.ULONG_MOD ->
  2 <= base <= 36 ->
  Print.printInteger fuel (-42) = Print.Done ["-"; "4"; "2"]%byte
  /\ Print.printIntegerInBase fuel 255 16 = Print.Done ["F"; "F"]%byte
  /\ (exists ms,
        Print.printIntegerInBase fuel n base
        = Print.Done (map Print.digit_symbol ms)
        /\ Forall (fun d => 0 <= d < base) ms
        /\ head ms <> Some 0
        /\ Print.digits_value base ms = n)
  /\ (forall b, Print.printIntegerInBase fuel 0 b = Print.Done ["0"%byte]).
Proof.
  intros Hfuel Hn Hbase.
  assert (forall m b, 0 < m < Print.ULONG_MOD -> 2 <= b ->
            Print.printIntegerInBase fuel m b
            = Print.Done (map Print.digit_char
                            (rev (map uchar (Print.lsd_digits Print.BUF_LEN m b)))))
    as Hprint.
  { intros m b Hm Hb. unfold Print.printIntegerInBase.
    apply printIntegerInBase_from_digits; [done|done|done|].
    pose proof (lsd_digits_length b Print.BUF_LEN m). lia. }
  split; [|split; [|split]].
  - unfold Print.printInteger. change (-42 <? 0) with true. cbv iota.
    change (- -42 mod Print.ULONG_MOD) with 42.
    rewrite Hprint by done. reflexivity.
  - rewrite Hprint by done. reflexivity.
  - exists (rev (Print.lsd_digits Print.BUF_LEN n base)).
    rewrite ULONG_MOD_pow in Hn.
    split; [|split; [|split]].
    + rewrite Hprint by (rewrite ?ULONG_MOD_pow; lia).
      rewrite <- map_rev. f_equal.
      apply (digit_chars_symbols base); [lia|].
      apply Forall_rev, lsd_digits_range; lia.
    + apply Forall_rev, lsd_digits_range; lia.
    + apply lsd_digits_msd; lia.
    + apply lsd_digits_value; lia.
  - intros b. reflexivity.
Qed.

Lemma printIntegerInBase_digits_witness :
  (Print.BUF_LEN <= 32)%nat
  /\ 0 < 255 < Print.ULONG_MOD
  /\ 2 <= 16 <= 36
  /\ Print.printInteger 32 (-42) = Print.Done ["-"; "4"; "2"]%byte
  /\ Print.printIntegerInBase 32 255 16 = Print.Done ["F"; "F"]%byte.
Proof.
  assert (Print.BUF_LEN <= 32)%nat as Hfuel by (vm_compute; lia).
  assert (0 < 255 < Print.ULONG_MOD) as Hn by (vm_compute; done).
  assert (2 <= 16 <= 36) as Hbase by lia.
  split; [exact Hfuel|]. split; [exact Hn|]. split; [exact Hbase|].
  destruct (printIntegerInBase_digits 32 255 16 Hfuel Hn Hbase)
    as (Hminus & Hhex & _).
  split; [exact Hminus|exact Hhex].
Defined.

(** C10.  For every [unsigned long n] and every base of at least 2, each
    iteration of the digit loop strictly decreases [n], the loop ends
    after [i <= 8 * sizeof(long)] iterations (any fuel of at least [i]
    suffices) without a store outside the local array, and
    [printIntegerInBase] returns. *)
Theorem printIntegerInBase_terminates fuel n base :
  0 <= n < Print.ULONG_MOD ->
  2 <= base ->
  (Print.BUF_LEN <= fuel)%nat ->
  (0 < n -> 0 <= n / base < n)
  /\ (exists buf i,
        (i <= Print.BUF_LEN)%nat
        /\ length buf = Print.BUF_LEN
        /\ (forall fuel', (i <= fuel')%nat ->
              Print.digit_loop fuel' n base (replicate Print.BUF_LEN 0) 0
              = Print.Done (buf, i)))
  /\ exists out, Print.printIntegerInBase fuel n base = Print.Done out.
Proof.
  intros Hn Hbase Hfuel.
  pose proof (lsd_digits_length base Print.BUF_LEN n) as Hds.
  split; [|split].
  - intros Hpos. split; [apply Z.div_pos; lia|apply Z.div_lt; lia].
  - rewrite ULONG_MOD_pow in Hn.
    set (i := length (Print.lsd_digits Print.BUF_LEN n base)) in *.
    destruct (digit_loop_spec base Hbase Print.BUF_LEN i n
                (replicate Print.BUF_LEN 0) 0)
      as (buf & Hrun & Hlen & _); [done|done|lia|by rewrite length_replicate|].
    exists buf, i.
    split; [done|]. split; [done|]. intros fuel' Hfuel'.
    by apply (digit_loop_fuel_mono i).
  - destruct (Z.eq_dec n 0) as [->|Hnz]; [by exists ["0"%byte]|].
    eexists. unfold Print.printIntegerInBase.
    apply printIntegerInBase_from_digits;
      [by rewrite length_replicate|lia|done|lia].
Qed.

Lemma printIntegerInBase_terminates_witness :
  0 <= 4294967295 < Print.ULONG_MOD
  /\ 2 <= 2
  /\ (Print.BUF_LEN <= 32)%nat
  /\ exists out, Print.printIntegerInBase 32 4294967295 2 = Print.Done out.
Proof.
  assert (0 <= 4294967295 < Print.ULONG_MOD) as Hn by (vm_compute; done).
  assert (2 <= 2) as Hbase by lia.
  assert (Print.BUF_LEN <= 32)%nat as Hfuel by (vm_compute; lia).
  split; [exact Hn|]. split; [exact Hbase|]. split; [exact Hfuel|].
  destruct (printIntegerInBase_terminates 32 4294967295 2 Hn Hbase Hfuel)
    as (_ & _ & Hout).
  exact Hout.
Defined.

(** * Further properties *)

(** ** Receive side under sequences of operations *)

(** A non-empty buffer stays non-empty under interrupts and reads, and every
    read of it returns the sentinel. *)
Lemma rx_run_nonempty m evs : forall s,
  RxRun.no_flush evs = true ->
  Rx.rx_buffer_head s <> Rx.rx_buffer_tail s ->
  fst (RxRun.run m evs s) = replicate (RxRun.reads evs) Rx.EMPTY
  /\ Rx.rx_buffer_head (snd (RxRun.run m evs s))
     <> Rx.rx_buffer_tail (snd (RxRun.run m evs s)).
Proof.
  induction evs as [|[c| |] evs IH]; intros s Hnf Hne; simpl in *;
    [done| | |discriminate].
  - apply IH; [done|]. unfold Rx.USART_RX_vect.
    destruct (Z.eqb_spec (Z.rem (Rx.rx_buffer_head s + 1) (RX_BUFFER_SIZE m))
                (Rx.rx_buffer_tail s)); simpl; done.
  - unfold Rx.serialRead, Rx.serialAnyAvailable.
    rewrite (proj2 (Z.eqb_neq _ _) Hne). cbn [negb].
    destruct (IH s Hnf Hne) as [Hr Hs].
    destruct (RxRun.run m evs s) as [rs s2]. simpl in *.
    unfold RxRun.reads in *. simpl. by rewrite Hr.
Qed.

(** X1.  From the initial state, under any sequence of receive interrupts
    and reads (no flush), [serialRead] never hands over a received byte:
    every call returns the sentinel, except that a call made before
    anything else returns the 0 of the zero-initialised array. *)
Theorem serialRead_never_delivers m evs :
  RxRun.no_flush evs = true ->
  fst (RxRun.run m evs (Rx.init m))
  = match evs with
    | RxRun.Read :: evs' => 0 :: replicate (RxRun.reads evs') Rx.EMPTY
    | _ => replicate (RxRun.reads evs) Rx.EMPTY
    end.
Proof.
  intros Hnf. destruct evs as [|[c| |] evs]; [done| | |discriminate].
  - change (RxRun.no_flush evs = true) in Hnf. cbn [RxRun.run].
    destruct (rx_run_nonempty m evs (Rx.USART_RX_vect m c (Rx.init m)) Hnf)
      as [Hr _]; [by destruct m|].
    exact Hr.
  - change (RxRun.no_flush evs = true) in Hnf. cbn [RxRun.run].
    assert (Rx.serialRead m (Rx.init m)
            = (0, Rx.mk (Rx.rx_buffer (Rx.init m)) 0 1)) as -> by (by destruct m).
    destruct (rx_run_nonempty m evs (Rx.mk (Rx.rx_buffer (Rx.init m)) 0 1) Hnf)
      as [Hr _]; [done|].
    destruct (RxRun.run m evs _) as [rs s2]. simpl in *. by rewrite Hr.
Qed.

Lemma serialRead_never_delivers_witness :
  RxRun.no_flush [RxRun.Receive "h"; RxRun.Read; RxRun.Receive "i"; RxRun.Read]
  = true
  /\ fst (RxRun.run OtherAVR
            [RxRun.Receive "h"; RxRun.Read; RxRun.Receive "i"; RxRun.Read]
            (Rx.init OtherAVR))
     = [Rx.EMPTY; Rx.EMPTY].
Proof.
  split; [reflexivity|].
  exact (serialRead_never_delivers OtherAVR
           [RxRun.Receive "h"; RxRun.Read; RxRun.Receive "i"; RxRun.Read]
           eq_refl).
Defined.

(** X2.  After a call of [serialRead] on an empty buffer the receive side
    is stuck: whatever interrupts and reads follow, the state no longer
    changes (every incoming byte is dropped) and every read returns the
    sentinel; only [serialFlush] gets out of it. *)
Theorem serialRead_underflow_sticks m s evs :
  Rx.valid m s ->
  Rx.rx_buffer_head s = Rx.rx_buffer_tail s ->
  RxRun.no_flush evs = true ->
  let s' := snd (Rx.serialRead m s) in
  RxRun.run m evs s' = (replicate (RxRun.reads evs) Rx.EMPTY, s')
  /\ Rx.serialAnyAvailable (Rx.serialFlush s') = false.
Proof.
  intros Hv Heq Hnf s'. pose proof (RX_BUFFER_SIZE_pos m) as HN.
  pose proof Hv as (Hlen & Hh & Ht).
  assert (s' = Rx.mk (Rx.rx_buffer s) (Rx.rx_buffer_head s)
                 ((Rx.rx_buffer_tail s + 1) mod RX_BUFFER_SIZE m)) as Es.
  { subst s'. unfold Rx.serialRead, Rx.serialAnyAvailable.
    rewrite Heq, Z.eqb_refl. simpl. by rewrite rem_succ_mod by lia. }
  assert (Rx.valid m s') as Hv'.
  { rewrite Es. unfold Rx.valid; simpl.
    pose proof (Z.mod_pos_bound (Rx.rx_buffer_tail s + 1) (RX_BUFFER_SIZE m)).
    lia. }
  assert (Z.of_nat (Rx.count m s') = RX_BUFFER_SIZE m - 1) as Hfull.
  { rewrite Es. unfold Rx.count, ring_count; simpl. rewrite Heq.
    set (N := RX_BUFFER_SIZE m) in *. mod_window N; lia. }
  assert (Rx.rx_buffer_head s' <> Rx.rx_buffer_tail s') as Hne.
  { rewrite Es; simpl. rewrite Heq.
    set (N := RX_BUFFER_SIZE m) in *. mod_window N; lia. }
  split.
  - clearbody s'. clear Es. induction evs as [|[c| |] evs IH]; simpl in *;
      [done| | |discriminate].
    + rewrite USART_RX_vect_full by done. by apply IH.
    + unfold Rx.serialRead, Rx.serialAnyAvailable.
      rewrite (proj2 (Z.eqb_neq _ _) Hne). cbn [negb].
      rewrite (IH Hnf). unfold RxRun.reads. done.
  - unfold Rx.serialFlush, Rx.serialAnyAvailable; simpl. by rewrite Z.eqb_refl.
Qed.

Lemma serialRead_underflow_sticks_witness :
  Rx.valid OtherAVR (Rx.init OtherAVR)
  /\ Rx.rx_buffer_head (Rx.init OtherAVR) = Rx.rx_buffer_tail (Rx.init OtherAVR)
  /\ RxRun.no_flush [RxRun.Receive "a"; RxRun.Read] = true
  /\ RxRun.run OtherAVR [RxRun.Receive "a"; RxRun.Read]
       (snd (Rx.serialRead OtherAVR (Rx.init OtherAVR)))
     = ([Rx.EMPTY], snd (Rx.serialRead OtherAVR (Rx.init OtherAVR))).
Proof.
  assert (Rx.valid OtherAVR (Rx.init OtherAVR)) as Hv
    by (unfold Rx.valid; simpl; lia).
  split; [exact Hv|]. split; [reflexivity|]. split; [reflexivity|].
  destruct (serialRead_underflow_sticks OtherAVR (Rx.init OtherAVR)
              [RxRun.Receive "a"; RxRun.Read] Hv eq_refl eq_refl) as [Hrun _].
  exact Hrun.
Defined.

(** X3.  Whatever sequence of receive interrupts, reads and flushes runs
    from a state with in-range indices, the array keeps its length, both
    indices stay in range, and the buffer never counts more than
    [RX_BUFFER_SIZE - 1] bytes. *)
Theorem rx_indices_stay_in_range m evs s :
  Rx.valid m s ->
  Rx.valid m (snd (RxRun.run m evs s))
  /\ Z.of_nat (Rx.count m (snd (RxRun.run m evs s))) <= RX_BUFFER_SIZE m - 1.
Proof.
  intros Hv. pose proof (RX_BUFFER_SIZE_pos m) as HN.
  assert (Rx.valid m (snd (RxRun.run m evs s))) as Hfinal.
  { revert s Hv. induction evs as [|[c| |] evs IH]; intros s Hv; simpl; [done|..].
    - apply IH. by apply rx_valid_preserved.
    - destruct (rx_valid_preserved m s Hv) as (Hr & _).
      destruct (Rx.serialRead m s) as [r s1]. simpl in Hr.
      specialize (IH s1 Hr). destruct (RxRun.run m evs s1). done.
    - apply IH. by apply rx_valid_preserved. }
  split; [done|].
  pose proof (ring_count_lt (RX_BUFFER_SIZE m) ltac:(lia)
                (Rx.rx_buffer_head (snd (RxRun.run m evs s)))
                (Rx.rx_buffer_tail (snd (RxRun.run m evs s)))) as Hlt.
  unfold Rx.count. lia.
Qed.

Lemma rx_indices_stay_in_range_witness :
  Rx.valid ATmega328P (Rx.init ATmega328P)
  /\ Rx.valid ATmega328P
       (snd (RxRun.run ATmega328P
               [RxRun.Read; RxRun.Flush; RxRun.Receive "z"; RxRun.Read]
               (Rx.init ATmega328P))).
Proof.
  assert (Rx.valid ATmega328P (Rx.init ATmega328P)) as Hv
    by (unfold Rx.valid; simpl; lia).
  split; [exact Hv|].
  destruct (rx_indices_stay_in_range ATmega328P
              [RxRun.Read; RxRun.Flush; RxRun.Receive "z"; RxRun.Read]
              (Rx.init ATmega328P) Hv) as [Hfinal _].
  exact Hfinal.
Defined.

(** X4.  A flush followed by a burst of received bytes: whatever the
    buffer held before, it then holds exactly the first
    [RX_BUFFER_SIZE - 1] bytes of the burst, in arrival order. *)
Theorem serialFlush_then_receive m s l :
  Rx.valid m s ->
  Rx.contents m (Rx.serialFlush s) = []
  /\ Rx.contents m (Rx.receive_all m l (Rx.serialFlush s))
     = take (Z.to_nat (RX_BUFFER_SIZE m - 1)) l.
Proof.
  intros (Hlen & Hh & Ht). pose proof (RX_BUFFER_SIZE_pos m) as HN.
  assert (Rx.contents m (Rx.serialFlush s) = []) as Hempty.
  { unfold Rx.contents, Rx.serialFlush; simpl. apply ring_contents_diag. lia. }
  split; [done|].
  destruct (rx_receive_all m l (Rx.serialFlush s)) as (_ & _ & Hc).
  { unfold Rx.valid, Rx.serialFlush; simpl. lia. }
  rewrite Hc, Hempty. simpl. by rewrite Nat.sub_0_r.
Qed.

Lemma serialFlush_then_receive_witness :
  Rx.valid OtherAVR (Rx.receive_all OtherAVR ["o"; "l"; "d"]%byte (Rx.init OtherAVR))
  /\ Rx.contents OtherAVR
       (Rx.receive_all OtherAVR ["n"; "e"; "w"]%byte
          (Rx.serialFlush
             (Rx.receive_all OtherAVR ["o"; "l"; "d"]%byte (Rx.init OtherAVR))))
     = ["n"; "e"; "w"]%byte.
Proof.
  assert (Rx.valid OtherAVR
            (Rx.receive_all OtherAVR ["o"; "l"; "d"]%byte (Rx.init OtherAVR)))
    as Hv by (repeat split; vm_compute; congruence).
  split; [exact Hv|].
  destruct (serialFlush_then_receive OtherAVR _ ["n"; "e"; "w"]%byte Hv)
    as [_ Hc].
  rewrite Hc. reflexivity.
Defined.

(** ** Transmit side under sequences of operations *)

Lemma tx_pending_length s :
  length (Tx.pending s)
  = ring_count TX_BUFFER_SIZE (Tx.tx_buffer_head s) (Tx.tx_buffer_tail s).
Proof. apply ring_contents_length. Qed.

(** A call of [serialWrite] on a buffer that is not full returns, and the
    byte goes behind everything submitted before it. *)
Lemma serialWrite_room ucsr0a c s :
  Tx.valid s ->
  (length (Tx.pending s) < 15)%nat ->
  exists s',
    Tx.serialWrite ucsr0a c s = Tx.Returned s'
    /\ Tx.valid s'
    /\ Tx.UDR0 s' ++ Tx.pending s' = Tx.UDR0 s ++ Tx.pending s ++ [c]
    /\ Tx.tx_buffer_tail s' = Tx.tx_buffer_tail s
    /\ (length (Tx.pending s') <= S (length (Tx.pending s)))%nat.
Proof.
  intros Hv Hroom. pose proof Hv as (Hlen & Hh & Ht).
  unfold Tx.serialWrite. destruct (Tx.use_buffer ucsr0a s) eqn:Hub.
  - assert (Tx.next_head s <> Tx.tx_buffer_tail s) as Hne.
    { unfold Tx.next_head. rewrite tx_wrap. intros E.
      apply ring_full in E; [|done..]. rewrite <- tx_pending_length in E.
      unfold TX_BUFFER_SIZE in E. lia. }
    rewrite (proj2 (Z.eqb_neq _ _) Hne).
    destruct (enqueue_spec c s Hv Hne) as (Hv' & Hp & Hu & Ht' & _).
    eexists. split; [done|]. rewrite Hp, Hu, length_app. simpl.
    split; [done|]. split; [done|]. split; [done|lia].
  - unfold Tx.use_buffer in Hub. apply orb_false_iff in Hub as [_ Hempty].
    apply negb_false_iff, Z.eqb_eq in Hempty.
    assert (Tx.pending s = []) as Hp.
    { unfold Tx.pending. rewrite Hempty. by apply ring_contents_diag. }
    assert (Tx.pending (Tx.write_UDR0 c s) = []) as Hp' by exact Hp.
    eexists. split; [done|]. rewrite Hp', Hp. simpl.
    split; [exact Hv|]. split; [by rewrite app_nil_r|]. split; [done|lia].
Qed.

Lemma write_all_room ws : forall s,
  Tx.valid s ->
  (length (Tx.pending s) + length ws <= 15)%nat ->
  exists s',
    TxRun.write_all ws s = Tx.Returned s'
    /\ Tx.valid s'
    /\ Tx.UDR0 s' ++ Tx.pending s' = Tx.UDR0 s ++ Tx.pending s ++ map snd ws
    /\ Tx.tx_buffer_tail s' = Tx.tx_buffer_tail s.
Proof.
  induction ws as [|[a c] ws IH]; intros s Hv Hroom; simpl in *.
  - exists s. by rewrite app_nil_r.
  - destruct (serialWrite_room a c s Hv) as (s1 & Hw & Hv1 & Hout1 & Ht1 & Hl1);
      [lia|].
    unfold TxRun.printByte. rewrite Hw.
    destruct (IH s1 Hv1) as (s' & Hrun & Hv' & Hout & Ht'); [lia|].
    exists s'. split; [done|]. split; [done|]. split; [|congruence].
    rewrite Hout, app_assoc, Hout1, <- !app_assoc. done.
Qed.

(** Letting the interrupt run once per buffered byte. *)
Lemma drain_pending n : forall s,
  Tx.valid s ->
  length (Tx.pending s) = n ->
  let s' := TxRun.drain n s in
  Tx.valid s'
  /\ Tx.UDR0 s' = Tx.UDR0 s ++ Tx.pending s
  /\ Tx.tx_buffer_tail s' = Tx.tx_buffer_head s'
  /\ Tx.tx_buffer_head s' = Tx.tx_buffer_head s
  /\ Tx.tx_buffer s' = Tx.tx_buffer s
  /\ Tx.armed s' = Tx.armed s && (n =? 0)%nat.
Proof.
  induction n as [|n IH]; intros s Hv Hlen s'; subst s'; simpl.
  - pose proof Hv as (_ & Hh & Ht).
    rewrite tx_pending_length in Hlen.
    apply (ring_count_zero TX_BUFFER_SIZE) in Hlen; [|done..].
    assert (Tx.pending s = []) as ->.
    { unfold Tx.pending. rewrite Hlen. by apply ring_contents_diag. }
    by rewrite app_nil_r, andb_true_r.
  - assert (Tx.tx_buffer_head s <> Tx.tx_buffer_tail s) as Hne.
    { intros E. unfold Tx.pending in Hlen.
      rewrite E, ring_contents_diag in Hlen by done. discriminate. }
    destruct (USART_UDRE_vect_spec s Hv Hne) as (Hv1 & Hout1 & Hh1 & Hl1 & Ha1).
    destruct (IH (Tx.USART_UDRE_vect s) Hv1) as (Hv' & Hu & Ht & Hh & Hb & Ha);
      [lia|].
    split; [done|]. split; [by rewrite Hu, Hout1|]. split; [done|].
    split; [by rewrite Hh, Hh1|]. split; [by rewrite Hb|].
    rewrite Ha, andb_false_r. destruct n as [|n]; [|apply andb_false_r].
    rewrite andb_true_r, Ha1.
    assert (Tx.tx_buffer_head (Tx.USART_UDRE_vect s)
            = Tx.tx_buffer_tail (Tx.USART_UDRE_vect s)) as ->.
    { pose proof Hv1 as (_ & Hh' & Ht').
      apply (ring_count_zero TX_BUFFER_SIZE); [done..|].
      rewrite <- tx_pending_length. lia. }
    rewrite Z.eqb_refl. apply andb_false_r.
Qed.

(** X5.  Consecutive calls of [serialWrite] with no interrupt in between
    all return as long as the bytes already buffered plus the new ones
    number at most [TX_BUFFER_SIZE - 1 = 15], whatever UCSR0A reads at each
    call; nothing is lost or reordered: what UDR0 has received followed by
    the buffer contents grows by exactly the written bytes, in order, and
    [tail] is not touched. *)
Theorem serialWrite_burst_fits ws s :
  Tx.valid s ->
  (length (Tx.pending s) + length ws <= 15)%nat ->
  exists s',
    TxRun.write_all ws s = Tx.Returned s'
    /\ Tx.valid s'
    /\ Tx.UDR0 s' ++ Tx.pending s' = Tx.UDR0 s ++ Tx.pending s ++ map snd ws
    /\ Tx.tx_buffer_tail s' = Tx.tx_buffer_tail s.
Proof. apply write_all_room. Qed.

Lemma serialWrite_burst_fits_witness :
  Tx.valid Tx.init
  /\ (length (Tx.pending Tx.init) + length [(0, "o"%byte); (32, "k"%byte)] <= 15)%nat
  /\ exists s',
       TxRun.write_all [(0, "o"%byte); (32, "k"%byte)] Tx.init = Tx.Returned s'
       /\ Tx.UDR0 s' ++ Tx.pending s' = ["o"; "k"]%byte.
Proof.
  assert (Tx.valid Tx.init) as Hv by (repeat split; vm_compute; congruence).
  assert (length (Tx.pending Tx.init)
          + length [(0, "o"%byte); (32, "k"%byte)] <= 15)%nat as Hroom
    by (vm_compute; lia).
  split; [exact Hv|]. split; [exact Hroom|].
  destruct (serialWrite_burst_fits [(0, "o"%byte); (32, "k"%byte)] Tx.init
              Hv Hroom) as (s' & Hrun & _ & Hout & _).
  exists s'. split; [exact Hrun|exact Hout].
Defined.

(** X6.  With 15 bytes buffered, [serialWrite] does not return, whatever
    UCSR0A reads: it spins on [newhead == tx_buffer_tail].  One run of the
    interrupt ends the wait; the call then stores its byte behind the 14
    that remain, so the buffer is full again and nothing was lost or
    reordered. *)
Theorem serialWrite_full_buffer_waits ucsr0a c s :
  Tx.valid s ->
  length (Tx.pending s) = 15%nat ->
  let s1 := Tx.USART_UDRE_vect s in
  let s2 := Tx.enqueue c (Tx.next_head s) s1 in
  Tx.serialWrite ucsr0a c s = Tx.Spinning c (Tx.next_head s)
  /\ Tx.next_head s <> Tx.tx_buffer_tail s1
  /\ Tx.UDR0 s2 ++ Tx.pending s2 = Tx.UDR0 s ++ Tx.pending s ++ [c]
  /\ length (Tx.UDR0 s2) = S (length (Tx.UDR0 s))
  /\ length (Tx.pending s2) = 15%nat.
Proof.
  intros Hv Hfull s1 s2. pose proof Hv as (Hlen & Hh & Ht).
  assert (Tx.next_head s = Tx.tx_buffer_tail s) as Hnh.
  { unfold Tx.next_head. rewrite tx_wrap. apply ring_full; [done..|].
    rewrite <- tx_pending_length, Hfull. reflexivity. }
  assert (Tx.tx_buffer_head s <> Tx.tx_buffer_tail s) as Hne.
  { intros E. unfold Tx.pending in Hfull.
    rewrite E, ring_contents_diag in Hfull by done. discriminate. }
  destruct (USART_UDRE_vect_spec s Hv Hne) as (Hv1 & Hout1 & Hh1 & Hl1 & _).
  fold s1 in Hv1, Hout1, Hh1, Hl1.
  assert (Tx.next_head s1 = Tx.next_head s) as Hnh1
    by (unfold Tx.next_head; by rewrite Hh1).
  assert (Tx.next_head s <> Tx.tx_buffer_tail s1) as Hroom.
  { rewrite Hnh. subst s1. unfold Tx.USART_UDRE_vect. cbn [Tx.tx_buffer_tail].
    rewrite tx_wrap. unfold TX_BUFFER_SIZE in *. intros E. mod_window 16; lia. }
  split.
  { unfold Tx.serialWrite, Tx.use_buffer.
    rewrite (proj2 (Z.eqb_neq _ _) Hne), orb_true_r.
    by rewrite (proj2 (Z.eqb_eq _ _) Hnh). }
  split; [done|].
  destruct (enqueue_spec c s1 Hv1) as (_ & Hp2 & Hu2 & _); [by rewrite Hnh1|].
  rewrite Hnh1 in Hp2, Hu2. fold s2 in Hp2, Hu2.
  rewrite Hp2, Hu2, app_assoc, Hout1, <- app_assoc, length_app. simpl.
  split; [done|]. split; [|lia].
  rewrite length_app. simpl. lia.
Qed.

Lemma serialWrite_full_buffer_waits_witness :
  Tx.valid (Tx.mk (replicate 16 "q"%byte) 15 0 184 [])
  /\ length (Tx.pending (Tx.mk (replicate 16 "q"%byte) 15 0 184 [])) = 15%nat
  /\ Tx.serialWrite 32 "r" (Tx.mk (replicate 16 "q"%byte) 15 0 184 [])
     = Tx.Spinning "r" 0.
Proof.
  assert (Tx.valid (Tx.mk (replicate 16 "q"%byte) 15 0 184 [])) as Hv
    by (repeat split; vm_compute; congruence).
  split; [exact Hv|]. split; [reflexivity|].
  destruct (serialWrite_full_buffer_waits 32 "r" _ Hv eq_refl) as (Hspin & _).
  exact Hspin.
Defined.

(** X7.  Letting the interrupt run once per buffered byte stores the
    buffered bytes into UDR0 oldest first, leaves the buffer empty with
    [head] and the array untouched, and leaves UDRIE0 clear (if nothing
    was buffered, nothing happens). *)
Theorem USART_UDRE_vect_drains_in_order s :
  Tx.valid s ->
  let s' := TxRun.drain (length (Tx.pending s)) s in
  Tx.valid s'
  /\ Tx.UDR0 s' = Tx.UDR0 s ++ Tx.pending s
  /\ Tx.tx_buffer_tail s' = Tx.tx_buffer_head s'
  /\ Tx.tx_buffer_head s' = Tx.tx_buffer_head s
  /\ Tx.tx_buffer s' = Tx.tx_buffer s
  /\ Tx.armed s' = Tx.armed s && (length (Tx.pending s) =? 0)%nat.
Proof. intros Hv. by apply drain_pending. Qed.

Lemma USART_UDRE_vect_drains_in_order_witness :
  Tx.valid (Tx.enqueue "b" 2 (Tx.enqueue "a" 1 Tx.init))
  /\ Tx.UDR0 (TxRun.drain 2 (Tx.enqueue "b" 2 (Tx.enqueue "a" 1 Tx.init)))
     = ["a"; "b"]%byte
  /\ Tx.armed (TxRun.drain 2 (Tx.enqueue "b" 2 (Tx.enqueue "a" 1 Tx.init)))
     = false.
Proof.
  assert (Tx.valid (Tx.enqueue "b" 2 (Tx.enqueue "a" 1 Tx.init))) as Hv
    by (repeat split; vm_compute; congruence).
  split; [exact Hv|].
  destruct (USART_UDRE_vect_drains_in_order _ Hv) as (_ & Hu & _ & _ & _ & Ha).
  split; [exact Hu|exact Ha].
Defined.

(** X8.  Round trip through the transmit buffer: up to 15 bytes written to
    an empty buffer, then drained by the interrupt, arrive in UDR0 exactly
    as written, whichever calls took the direct path, and the buffer is
    empty again. *)
Theorem serialWrite_then_drain ws s :
  Tx.valid s ->
  Tx.tx_buffer_head s = Tx.tx_buffer_tail s ->
  (length ws <= 15)%nat ->
  exists s',
    TxRun.write_all ws s = Tx.Returned s'
    /\ Tx.UDR0 (TxRun.drain (length (Tx.pending s')) s')
       = Tx.UDR0 s ++ map snd ws
    /\ Tx.tx_buffer_tail (TxRun.drain (length (Tx.pending s')) s')
       = Tx.tx_buffer_head (TxRun.drain (length (Tx.pending s')) s').
Proof.
  intros Hv Hempty Hlen.
  assert (Tx.pending s = []) as Hp.
  { unfold Tx.pending. rewrite Hempty. by apply ring_contents_diag. }
  destruct (write_all_room ws s Hv) as (s' & Hrun & Hv' & Hout & _).
  { rewrite Hp. simpl. lia. }
  exists s'. split; [done|].
  destruct (drain_pending _ s' Hv' eq_refl) as (_ & Hu & Ht & _).
  split; [|done]. by rewrite Hu, Hout, Hp.
Qed.

Lemma serialWrite_then_drain_witness :
  Tx.valid Tx.init
  /\ Tx.tx_buffer_head Tx.init = Tx.tx_buffer_tail Tx.init
  /\ (length [(32, "a"%byte); (0, "b"%byte); (32, "c"%byte)] <= 15)%nat
  /\ exists s',
       TxRun.write_all [(32, "a"%byte); (0, "b"%byte); (32, "c"%byte)] Tx.init
       = Tx.Returned s'
       /\ Tx.UDR0 (TxRun.drain (length (Tx.pending s')) s') = ["a"; "b"; "c"]%byte.
Proof.
  assert (Tx.valid Tx.init) as Hv by (repeat split; vm_compute; congruence).
  assert (length [(32, "a"%byte); (0, "b"%byte); (32, "c"%byte)] <= 15)%nat
    as Hlen by (vm_compute; lia).
  split; [exact Hv|]. split; [reflexivity|]. split; [exact Hlen|].
  destruct (serialWrite_then_drain
              [(32, "a"%byte); (0, "b"%byte); (32, "c"%byte)] Tx.init
              Hv eq_refl Hlen) as (s' & Hrun & Hu & _).
  exists s'. split; [exact Hrun|exact Hu].
Defined.

Lemma ring_slots_unroll N (buf : list byte) t n :
  0 < N -> 0 <= t < N ->
  map (fun k => buf !!! ring_slot N t k) (seq 0 (S n))
  = buf !!! Z.to_nat t
    :: map (fun k => buf !!! ring_slot N ((t + 1) mod N) k) (seq 0 n).
Proof.
  intros HN Ht. rewrite <- cons_seq, <- seq_shift, map_cons, map_map. f_equal.
  - unfold ring_slot. do 2 f_equal. change (Z.of_nat 0) with 0.
    rewrite Z.add_0_r. apply Z.mod_small; lia.
  - apply map_ext. intros k. unfold ring_slot. do 2 f_equal.
    rewrite Zplus_mod_idemp_l. f_equal. lia.
Qed.

(** X9.  The interrupt routine does not check for an empty buffer.  If it
    runs while [head = tail], it stores the stale byte at [tail] into UDR0,
    moves [tail] past [head] and leaves UCSR0B alone, so the buffer now
    counts 15 bytes; 16 runs in all send the whole array once, starting at
    [tail], before the buffer is empty again and UDRIE0 is cleared. *)
Theorem USART_UDRE_vect_on_empty_buffer s :
  Tx.valid s ->
  Tx.tx_buffer_head s = Tx.tx_buffer_tail s ->
  let s1 := Tx.USART_UDRE_vect s in
  let s16 := TxRun.drain 16 s in
  Tx.UDR0 s1 = Tx.UDR0 s ++ [Tx.tx_buffer s !!! Z.to_nat (Tx.tx_buffer_tail s)]
  /\ Tx.UCSR0B s1 = Tx.UCSR0B s
  /\ length (Tx.pending s1) = 15%nat
  /\ Tx.UDR0 s16
     = Tx.UDR0 s
       ++ map (fun k => Tx.tx_buffer s
                        !!! ring_slot TX_BUFFER_SIZE (Tx.tx_buffer_tail s) k)
              (seq 0 16)
  /\ Tx.tx_buffer_tail s16 = Tx.tx_buffer_tail s
  /\ Tx.armed s16 = false.
Proof.
  intros Hv Hempty s1 s16. pose proof Hv as (Hlen & Hh & Ht).
  set (t := Tx.tx_buffer_tail s) in *.
  set (t' := (t + 1) mod TX_BUFFER_SIZE).
  assert (0 <= t' < TX_BUFFER_SIZE) as Ht'
    by (apply Z.mod_pos_bound; reflexivity).
  assert (t' <> t) as Hne.
  { subst t'. unfold TX_BUFFER_SIZE in *. intros E. mod_window 16; lia. }
  assert (s1 = Tx.mk (Tx.tx_buffer s) (Tx.tx_buffer_head s) t' (Tx.UCSR0B s)
                 (Tx.UDR0 s ++ [Tx.tx_buffer s !!! Z.to_nat t])) as Es1.
  { subst s1. unfold Tx.USART_UDRE_vect. rewrite tx_wrap. fold t t'.
    rewrite Hempty. by rewrite (proj2 (Z.eqb_neq _ _) Hne). }
  assert (Tx.valid s1) as Hv1 by (rewrite Es1; done).
  assert (ring_count TX_BUFFER_SIZE t t' = 15%nat) as Hcount.
  { subst t'. unfold ring_count, TX_BUFFER_SIZE in *. mod_window 16; lia. }
  assert (length (Tx.pending s1) = 15%nat) as Hl1.
  { rewrite tx_pending_length, Es1. cbn [Tx.tx_buffer_head Tx.tx_buffer_tail].
    by rewrite Hempty. }
  split; [by rewrite Es1|]. split; [by rewrite Es1|]. split; [done|].
  change s16 with (TxRun.drain 15 s1).
  destruct (drain_pending 15 s1 Hv1 Hl1) as (_ & Hu & Htl & Hhd & _ & Ha).
  rewrite Hu, Htl, Hhd, Ha, andb_false_r.
  split; [|split; [by rewrite Es1|done]].
  rewrite (ring_slots_unroll TX_BUFFER_SIZE) by done. fold t'.
  rewrite Es1 at 1. cbn [Tx.UDR0]. rewrite <- app_assoc. do 2 f_equal.
  unfold Tx.pending, ring_contents. rewrite Es1.
  cbn [Tx.tx_buffer Tx.tx_buffer_head Tx.tx_buffer_tail].
  by rewrite Hempty, Hcount.
Qed.

Lemma USART_UDRE_vect_on_empty_buffer_witness :
  Tx.valid Tx.init
  /\ Tx.tx_buffer_head Tx.init = Tx.tx_buffer_tail Tx.init
  /\ length (Tx.pending (Tx.USART_UDRE_vect Tx.init)) = 15%nat
  /\ Tx.UDR0 (TxRun.drain 16 Tx.init) = replicate 16 x00.
Proof.
  assert (Tx.valid Tx.init) as Hv by (repeat split; vm_compute; congruence).
  split; [exact Hv|]. split; [reflexivity|].
  destruct (USART_UDRE_vect_on_empty_buffer Tx.init Hv eq_refl)
    as (_ & _ & Hl & Hu & _).
  split; [exact Hl|]. rewrite Hu. reflexivity.
Defined.

(** X10.  The arming statement of [serialWrite] is not protected against
    the interrupt.  If, between the update of [head] (line 84) and the
    setting of UDRIE0 (line 88), the interrupt runs often enough to send
    everything buffered including the new byte, every byte has reached UDR0
    in order, yet the call returns with UDRIE0 set on an empty buffer. *)
Theorem serialWrite_arms_after_drain c s :
  Tx.valid s ->
  Tx.next_head s <> Tx.tx_buffer_tail s ->
  let s1 := Tx.store_and_advance c (Tx.next_head s) s in
  let s2 := TxRun.drain (S (length (Tx.pending s))) s1 in
  let s3 := Tx.arm s2 in
  Tx.UDR0 s3 = Tx.UDR0 s ++ Tx.pending s ++ [c]
  /\ Tx.tx_buffer_head s3 = Tx.tx_buffer_tail s3
  /\ Tx.armed s3 = true.
Proof.
  intros Hv Hroom s1 s2 s3.
  destruct (enqueue_spec c s Hv Hroom) as (Hv1 & Hp1 & Hu1 & _).
  change (Tx.valid s1) in Hv1.
  change (Tx.pending s1 = Tx.pending s ++ [c]) in Hp1.
  change (Tx.UDR0 s1 = Tx.UDR0 s) in Hu1.
  destruct (drain_pending (S (length (Tx.pending s))) s1 Hv1)
    as (_ & Hu2 & Ht2 & _).
  { rewrite Hp1, length_app. simpl. lia. }
  fold s2 in Hu2, Ht2. subst s3. rewrite armed_arm.
  unfold Tx.arm. cbn [Tx.UDR0 Tx.tx_buffer_head Tx.tx_buffer_tail].
  by rewrite Hu2, Hu1, Hp1, Ht2.
Qed.

Lemma serialWrite_arms_after_drain_witness :
  Tx.valid (Tx.enqueue "a" 1 Tx.init)
  /\ Tx.next_head (Tx.enqueue "a" 1 Tx.init)
     <> Tx.tx_buffer_tail (Tx.enqueue "a" 1 Tx.init)
  /\ Tx.UDR0 (Tx.arm (TxRun.drain 2
                (Tx.store_and_advance "b" 2 (Tx.enqueue "a" 1 Tx.init))))
     = ["a"; "b"]%byte
  /\ Tx.pending (Tx.arm (TxRun.drain 2
                   (Tx.store_and_advance "b" 2 (Tx.enqueue "a" 1 Tx.init))))
     = []
  /\ Tx.armed (Tx.arm (TxRun.drain 2
                 (Tx.store_and_advance "b" 2 (Tx.enqueue "a" 1 Tx.init))))
     = true.
Proof.
  assert (Tx.valid (Tx.enqueue "a" 1 Tx.init)) as Hv
    by (repeat split; vm_compute; congruence).
  assert (Tx.next_head (Tx.enqueue "a" 1 Tx.init)
          <> Tx.tx_buffer_tail (Tx.enqueue "a" 1 Tx.init)) as Hroom
    by (vm_compute; congruence).
  split; [exact Hv|]. split; [exact Hroom|].
  destruct (serialWrite_arms_after_drain "b" _ Hv Hroom) as (Hu & _ & Ha).
  split; [exact Hu|]. split; [reflexivity|exact Ha].
Defined.

(** ** Peripheral set-up *)

(** X11.  For a non-negative clock and a positive baud rate, the two
    baud-rate registers together hold the divisor
    [(F_CPU / 16 + baud / 2) / baud - 1] reduced modulo [2^16]; when the
    divisor fits in 16 bits they hold it exactly, and the divisor plus one
    is [F_CPU / 16] divided by [baud] rounded to the nearest integer. *)
Theorem beginSerial_divisor F_CPU baud r :
  0 <= F_CPU ->
  0 < baud ->
  let r' := Setup.beginSerial F_CPU baud r in
  let d := Setup.divisor F_CPU baud in
  Setup.UBRR0H r' * 256 + Setup.UBRR0L r' = d mod 65536
  /\ 0 <= Setup.UBRR0H r' < 256
  /\ 0 <= Setup.UBRR0L r' < 256
  /\ (0 <= d < 65536 -> Setup.UBRR0H r' * 256 + Setup.UBRR0L r' = d)
  /\ 2 * Z.abs (Z.quot F_CPU 16 - (d + 1) * baud) <= baud.
Proof.
  intros HF Hb r' d. subst r'. unfold Setup.beginSerial.
  cbn [Setup.UBRR0H Setup.UBRR0L]. fold d. unfold uchar.
  rewrite Z.shiftr_div_pow2 by lia. change (2 ^ 8) with 256.
  pose proof (Z.mod_pos_bound (d / 256) 256 ltac:(lia)) as Hhi.
  pose proof (Z.mod_pos_bound d 256 ltac:(lia)) as Hlo.
  assert ((d / 256) mod 256 * 256 + d mod 256 = d mod 65536) as Hsum.
  { change 65536 with (256 * 256). rewrite Z.rem_mul_r by lia. lia. }
  split; [done|]. split; [done|]. split; [done|]. split.
  - intros Hd. rewrite Hsum. apply Z.mod_small. lia.
  - subst d. unfold Setup.divisor.
    rewrite (Z.quot_div_nonneg F_CPU 16), (Z.quot_div_nonneg baud 2) by lia.
    set (f := F_CPU / 16). set (h := baud / 2).
    assert (0 <= f) by (apply Z.div_pos; lia).
    assert (0 <= h) by (apply Z.div_pos; lia).
    rewrite (Z.quot_div_nonneg (f + h) baud) by lia.
    assert (2 * h <= baud < 2 * h + 2) as Hh.
    { subst h. pose proof (Z.div_mod baud 2 ltac:(lia)).
      pose proof (Z.mod_pos_bound baud 2 ltac:(lia)). lia. }
    pose proof (Z.div_mod (f + h) baud ltac:(lia)) as Hq.
    pose proof (Z.mod_pos_bound (f + h) baud Hb) as Hr.
    replace ((f + h) / baud - 1 + 1) with ((f + h) / baud) by lia.
    lia.
Qed.

Lemma beginSerial_divisor_witness :
  0 <= 16000000
  /\ 0 < 9600
  /\ Setup.UBRR0H (Setup.beginSerial 16000000 9600 (Setup.mk 0 0 0 0)) * 256
     + Setup.UBRR0L (Setup.beginSerial 16000000 9600 (Setup.mk 0 0 0 0))
     = 103.
Proof.
  assert (0 <= 16000000) as HF by lia.
  assert (0 < 9600) as Hb by lia.
  split; [exact HF|]. split; [exact Hb|].
  destruct (beginSerial_divisor 16000000 9600 (Setup.mk 0 0 0 0) HF Hb)
    as (Hsum & _).
  exact Hsum.
Defined.

(** X12.  A baud rate the clock cannot reach (so high that the rounded
    quotient is 0) makes the divisor -1, and both baud-rate registers are
    loaded with 255: the slowest setting instead of the fastest. *)
Theorem beginSerial_baud_too_high F_CPU baud r :
  0 <= F_CPU ->
  Z.quot F_CPU 16 + Z.quot baud 2 < baud ->
  Setup.UBRR0H (Setup.beginSerial F_CPU baud r) = 255
  /\ Setup.UBRR0L (Setup.beginSerial F_CPU baud r) = 255.
Proof.
  intros HF Hhigh. unfold Setup.beginSerial, Setup.divisor.
  cbn [Setup.UBRR0H Setup.UBRR0L].
  assert (0 <= Z.quot F_CPU 16) as Hf by (apply Z.quot_pos; lia).
  assert (0 < baud) as Hb.
  { destruct (Z_lt_dec 0 baud) as [|Hn]; [done|].
    assert (baud <= Z.quot baud 2); [|lia].
    rewrite <- (Z.opp_involutive baud), Z.quot_opp_l by lia.
    rewrite Z.quot_div_nonneg by lia.
    pose proof (Z.div_mod (- baud) 2 ltac:(lia)).
    pose proof (Z.mod_pos_bound (- baud) 2 ltac:(lia)). lia. }
  assert (0 <= Z.quot baud 2) as Hh by (apply Z.quot_pos; lia).
  rewrite (Z.quot_small (Z.quot F_CPU 16 + Z.quot baud 2) baud) by lia.
  done.
Qed.

Lemma beginSerial_baud_too_high_witness :
  0 <= 16000000
  /\ Z.quot 16000000 16 + Z.quot 4000000 2 < 4000000
  /\ Setup.UBRR0H (Setup.beginSerial 16000000 4000000 (Setup.mk 0 0 0 0)) = 255
  /\ Setup.UBRR0L (Setup.beginSerial 16000000 4000000 (Setup.mk 0 0 0 0)) = 255.
Proof.
  assert (0 <= 16000000) as HF by lia.
  assert (Z.quot 16000000 16 + Z.quot 4000000 2 < 4000000) as Hhigh
    by (vm_compute; reflexivity).
  split; [exact HF|]. split; [exact Hhigh|].
  exact (beginSerial_baud_too_high 16000000 4000000 (Setup.mk 0 0 0 0) HF Hhigh).
Defined.

(** X13.  For a non-negative clock and a positive baud rate (so that
    line 47 does not divide by zero), [beginSerial] sets RXEN0, TXEN0 and
    RXCIE0 in UCSR0B and clears U2X0 in UCSR0A and changes no other bit of
    the two registers; in particular it leaves the transmit arming bit
    UDRIE0 as it was.  Calling it a second time with the same arguments
    changes nothing. *)
Theorem beginSerial_control_bits :
  forall F_CPU baud r,
    0 <= F_CPU ->
    0 < baud ->
    let r' := Setup.beginSerial F_CPU baud r in
    (forall j, Z.testbit (Setup.UCSR0B r') j
               = (j <? 8) && (Z.testbit (Setup.UCSR0B r) j
                              || (j =? RXEN0) || (j =? TXEN0) || (j =? RXCIE0)))
    /\ (forall j, Z.testbit (Setup.UCSR0A r') j
                  = (j <? 8) && Z.testbit (Setup.UCSR0A r) j
                    && negb (j =? Setup.U2X0))
    /\ Z.testbit (Setup.UCSR0B r') UDRIE0 = Z.testbit (Setup.UCSR0B r) UDRIE0
    /\ Setup.beginSerial F_CPU baud r' = r'.
Proof.
  intros F_CPU baud r _ _ r'.
  assert (forall x j, Z.testbit (Tx.beginSerial_UCSR0B x) j
            = (j <? 8) && (Z.testbit x j
                           || (j =? RXEN0) || (j =? TXEN0) || (j =? RXCIE0)))
    as HB.
  { intros x j. unfold Tx.beginSerial_UCSR0B.
    rewrite !set_bit_testbit by done.
    rewrite (Z.eqb_sym RXEN0), (Z.eqb_sym TXEN0), (Z.eqb_sym RXCIE0).
    destruct (j <? 8); simpl; [|done]. by rewrite <- !orb_assoc. }
  assert (forall x j,
            Z.testbit (uchar (Z.land x (Z.lnot (Z.shiftl 1 Setup.U2X0)))) j
            = (j <? 8) && Z.testbit x j && negb (j =? Setup.U2X0)) as HA.
  { intros x j. rewrite clear_bit_testbit by done.
    by rewrite (Z.eqb_sym Setup.U2X0). }
  split; [intros j; apply HB|]. split; [intros j; apply HA|].
  split.
  { subst r'. cbn [Setup.beginSerial Setup.UCSR0B]. rewrite HB.
    change (UDRIE0 <? 8) with true. change (UDRIE0 =? RXEN0) with false.
    change (UDRIE0 =? TXEN0) with false. change (UDRIE0 =? RXCIE0) with false.
    by rewrite !orb_false_r. }
  subst r'. unfold Setup.beginSerial.
  cbn [Setup.UCSR0A Setup.UCSR0B]. f_equal.
  - apply Z.bits_inj'. intros j _. rewrite !HA.
    destruct (j <? 8), (Z.testbit (Setup.UCSR0A r) j), (j =? Setup.U2X0); done.
  - apply Z.bits_inj'. intros j _. rewrite !HB.
    destruct (j <? 8), (Z.testbit (Setup.UCSR0B r) j), (j =? RXEN0),
      (j =? TXEN0), (j =? RXCIE0); done.
Qed.

Lemma beginSerial_control_bits_witness :
  0 <= 16000000
  /\ 0 < 9600
  /\ Z.testbit (Setup.UCSR0B (Setup.beginSerial 16000000 9600
                  (Setup.mk 0 0 2 32))) UDRIE0 = true
  /\ Setup.beginSerial 16000000 9600
       (Setup.beginSerial 16000000 9600 (Setup.mk 0 0 2 32))
     = Setup.beginSerial 16000000 9600 (Setup.mk 0 0 2 32).
Proof.
  assert (0 <= 16000000) as HF by lia.
  assert (0 < 9600) as Hb by lia.
  split; [exact HF|]. split; [exact Hb|].
  destruct (beginSerial_control_bits 16000000 9600 (Setup.mk 0 0 2 32) HF Hb)
    as (_ & _ & Hbit & Hidem).
  split; [exact Hbit|exact Hidem].
Defined.

(** ** Printing strings *)

Lemma byte_to_Z_zero b : byte_to_Z b = 0 <-> b = x00.
Proof.
  split; [|by intros ->].
  destruct b; intros H; first [reflexivity | discriminate H].
Qed.

Lemma byte_of_Z_schar b : byte_of_Z (Strings.schar b) = b.
Proof. destruct b; reflexivity. Qed.

Lemma schar_zero b : (Strings.schar b =? 0) = (byte_to_Z b =? 0).
Proof. destruct b; reflexivity. Qed.

(** X14.  [printString] prints exactly the bytes in front of the first NUL
    of its argument, never a NUL itself; it runs off the end of the memory
    it was given exactly when that memory holds no NUL. *)
Theorem printString_prints_up_to_NUL :
  forall mem,
    (forall out,
       Strings.printString mem = Print.Done out
       <-> exists rest, mem = out ++ x00 :: rest /\ Forall (fun b => b <> x00) out)
    /\ (Strings.printString mem = Print.Undefined
        <-> Forall (fun b => b <> x00) mem)
    /\ Strings.printString mem <> Print.OutOfFuel.
Proof.
  induction mem as [|c mem (IHdone & IHundef & IHfuel)].
  - split; [|split; [|done]]; [|by split; [constructor|]].
    intros out. split; [done|]. intros (rest & E & _). by destruct out.
  - cbn [Strings.printString].
    destruct (Z.eqb_spec (byte_to_Z c) 0) as [Hz|Hnz].
    + apply byte_to_Z_zero in Hz as ->.
      split; [|split; [|done]].
      * intros out. split.
        -- intros [= <-]. exists mem. split; [done|constructor].
        -- intros (rest & E & Hout). destruct out as [|b out]; [done|].
           simpl in E. injection E as <- _. by inversion Hout.
      * split; [done|]. intros H. by inversion H.
    + assert (c <> x00) as Hc by (intros ->; by apply Hnz).
      split; [|split].
      * intros out. destruct (Strings.printString mem) as [o| |] eqn:Hp.
        -- split.
           ++ intros [= <-]. destruct (proj1 (IHdone o) eq_refl) as (rest & -> & Ho).
              exists rest. split; [done|by constructor].
           ++ intros (rest & E & Hout). destruct out as [|b out].
              { simpl in E. by injection E as ->. }
              simpl in E. injection E as <- ->. inversion Hout; subst.
              f_equal. f_equal.
              assert (Print.Done o = Print.Done out) as [= ->]; [|done].
              apply IHdone. by exists rest.
        -- done.
        -- split; [done|]. intros (rest & E & Hout). destruct out as [|b out].
           { simpl in E. by injection E as ->. }
           simpl in E. injection E as <- ->. inversion Hout; subst.
           assert (Print.Undefined = Print.Done out) as Habs; [|done].
           apply IHdone. by exists rest.
      * destruct (Strings.printString mem) as [o| |] eqn:Hp.
        -- split; [done|]. intros H. inversion H as [|? ? _ Hmem]; subst.
           by apply IHundef in Hmem.
        -- done.
        -- split; [|done]. intros _. constructor; [done|]. by apply IHundef.
      * by destruct (Strings.printString mem).
Qed.

Lemma printString_prints_up_to_NUL_witness :
  (exists rest, ["o"; "k"; x00; "!"]%byte = ["o"; "k"]%byte ++ x00 :: rest
                /\ Forall (fun b => b <> x00) ["o"; "k"]%byte)
  /\ Strings.printString ["o"; "k"; x00; "!"]%byte = Print.Done ["o"; "k"]%byte.
Proof.
  assert (exists rest, ["o"; "k"; x00; "!"]%byte = ["o"; "k"]%byte ++ x00 :: rest
                       /\ Forall (fun b => b <> x00) ["o"; "k"]%byte) as Hex.
  { exists ["!"%byte]. split; [reflexivity|].
    repeat constructor; discriminate. }
  split; [exact Hex|].
  destruct (printString_prints_up_to_NUL ["o"; "k"; x00; "!"]%byte)
    as (Hdone & _).
  exact (proj2 (Hdone ["o"; "k"]%byte) Hex).
Defined.

(** X15.  [printPgmString] prints what [printString] prints: taking each
    byte through a (signed) [char] before handing it to [printByte]
    changes neither the byte nor where the string ends. *)
Theorem printPgmString_same_as_printString :
  forall mem, Strings.printPgmString mem = Strings.printString mem.
Proof.
  induction mem as [|b mem IH]; [done|].
  cbn [Strings.printPgmString Strings.printString].
  by rewrite schar_zero, IH, byte_of_Z_schar.
Qed.

(** ** Printed numbers can be read back *)

Lemma digit_of_char_symbol d :
  0 <= d < 36 -> Parse.digit_of_char (Print.digit_symbol d) = Some d.
Proof.
  intros Hd. rewrite <- (Z2Nat.id d) by lia.
  assert (Z.to_nat d < 36)%nat as Hk by lia.
  generalize dependent (Z.to_nat d). clear d Hd. intros k Hk.
  do 36 (destruct k as [|k]; [reflexivity|]). lia.
Qed.

Lemma parse_from_symbols base ms : forall acc,
  base <= 36 ->
  Forall (fun d => 0 <= d < base) ms ->
  Parse.parse_from base acc (map Print.digit_symbol ms)
  = Some (fold_left (fun a d => a * base + d) ms acc).
Proof.
  induction ms as [|d ms IH]; intros acc Hbase Hms; simpl; [done|].
  inversion Hms as [|? ? Hd Hrest]; subst.
  rewrite digit_of_char_symbol by lia.
  rewrite (proj2 (Z.ltb_lt d base)) by lia. by apply IH.
Qed.

Lemma lsd_digits_length_pow base j : forall k n,
  2 <= base ->
  0 <= n < base ^ Z.of_nat j ->
  (length (Print.lsd_digits k n base) <= j)%nat.
Proof.
  induction j as [|j IH]; intros k n Hbase Hn.
  - change (base ^ Z.of_nat 0) with 1 in Hn. assert (n = 0) as -> by lia.
    destruct k; simpl; lia.
  - destruct k as [|k]; simpl; [lia|].
    destruct (Z.gtb_spec n 0) as [Hpos|_]; simpl; [|lia].
    apply le_n_S, IH; [done|]. split; [apply Z.div_pos; lia|].
    rewrite Nat2Z.inj_succ, Z.pow_succ_r in Hn by lia.
    apply Z.div_lt_upper_bound; lia.
Qed.

Lemma printIntegerInBase_parse fuel n base :
  (Print.BUF_LEN <= fuel)%nat ->
  0 <= n < Print.ULONG_MOD ->
  2 <= base <= 36 ->
  exists out,
    Print.printIntegerInBase fuel n base = Print.Done out
    /\ Parse.parse_unsigned base out = Some n
    /\ length out = Nat.max 1 (length (Print.lsd_digits Print.BUF_LEN n base)).
Proof.
  intros Hfuel Hn Hbase.
  destruct (Z.eq_dec n 0) as [->|Hnz].
  - exists ["0"%byte]. split; [done|]. split; [|done].
    unfold Parse.parse_unsigned, Parse.parse_from.
    change (Parse.digit_of_char "0") with (Some 0). cbv beta iota.
    by rewrite (proj2 (Z.ltb_lt 0 base)) by lia.
  - set (ds := Print.lsd_digits Print.BUF_LEN n base).
    pose proof (lsd_digits_length base Print.BUF_LEN n) as Hlen. fold ds in Hlen.
    destruct (printIntegerInBase_from_digits (replicate Print.BUF_LEN 0)
                fuel n base) as (_ & _ & Hprint);
      [by rewrite length_replicate|lia|lia|fold ds; lia|].
    fold ds in Hprint. change (Print.printIntegerInBase_from _)
      with Print.printIntegerInBase in Hprint.
    assert (Forall (fun d => 0 <= d < base) ds) as Hrange
      by (apply lsd_digits_range; lia).
    assert (map Print.digit_char (rev (map uchar ds))
            = map Print.digit_symbol (rev ds)) as Hsym.
    { rewrite <- map_rev. apply (digit_chars_symbols base); [lia|].
      by apply Forall_rev. }
    rewrite Hsym in Hprint.
    assert (Print.digits_value base (rev ds) = n) as Hval.
    { apply lsd_digits_value; [lia|]. rewrite <- ULONG_MOD_pow. lia. }
    assert (ds <> []) as Hne.
    { intros E. rewrite E in Hval. unfold Print.digits_value in Hval.
      simpl in Hval. lia. }
    exists (map Print.digit_symbol (rev ds)). split; [done|]. split.
    + unfold Parse.parse_unsigned.
      destruct (map Print.digit_symbol (rev ds)) as [|b bs] eqn:E.
      { apply (f_equal length) in E. rewrite length_map, length_rev in E.
        destruct ds; [done|discriminate]. }
      rewrite <- E, parse_from_symbols; [|lia|by apply Forall_rev].
      by rewrite <- Hval.
    + rewrite length_map, length_rev. destruct ds; [done|simpl; lia].
Qed.

(** X16.  For a base from 2 to 36 the text printed by
    [printIntegerInBase] determines the number: reading it back, with
    ['0'-'9'] and ['A'-'Z'] as digits of that base, yields [n]; the text is
    never empty and never longer than the 32 slots of the local array. *)
Theorem printIntegerInBase_round_trip fuel n base :
  (Print.BUF_LEN <= fuel)%nat ->
  0 <= n < Print.ULONG_MOD ->
  2 <= base <= 36 ->
  exists out,
    Print.printIntegerInBase fuel n base = Print.Done out
    /\ Parse.parse_unsigned base out = Some n
    /\ (1 <= length out <= Print.BUF_LEN)%nat.
Proof.
  intros Hfuel Hn Hbase.
  destruct (printIntegerInBase_parse fuel n base Hfuel Hn Hbase)
    as (out & Hprint & Hparse & Hlen).
  exists out. split; [done|]. split; [done|].
  pose proof (lsd_digits_length base Print.BUF_LEN n) as Hds.
  change Print.BUF_LEN with 32%nat in *. lia.
Qed.

Lemma printIntegerInBase_round_trip_witness :
  (Print.BUF_LEN <= 32)%nat
  /\ 0 <= 48879 < Print.ULONG_MOD
  /\ 2 <= 16 <= 36
  /\ exists out,
       Print.printIntegerInBase 32 48879 16 = Print.Done out
       /\ Parse.parse_unsigned 16 out = Some 48879.
Proof.
  assert (Print.BUF_LEN <= 32)%nat as Hfuel by (vm_compute; lia).
  assert (0 <= 48879 < Print.ULONG_MOD) as Hn by (vm_compute; done).
  assert (2 <= 16 <= 36) as Hbase by lia.
  split; [exact Hfuel|]. split; [exact Hn|]. split; [exact Hbase|].
  destruct (printIntegerInBase_round_trip 32 48879 16 Hfuel Hn Hbase)
    as (out & Hprint & Hparse & _).
  exists out. split; [exact Hprint|exact Hparse].
Defined.

Lemma printInteger_parse fuel n :
  (Print.BUF_LEN <= fuel)%nat ->
  - 2147483648 <= n < 2147483648 ->
  exists out,
    Print.printInteger fuel n = Print.Done out
    /\ Parse.parse_signed out = Some n
    /\ (1 <= length out <= 11)%nat.
Proof.
  intros Hfuel Hn. unfold Print.printInteger.
  assert (Print.ULONG_MOD = 4294967296) as HM by reflexivity.
  assert (forall m, 0 <= m < 10 ^ Z.of_nat 10 ->
            (length (Print.lsd_digits Print.BUF_LEN m 10) <= 10)%nat) as Hten.
  { intros m Hm. apply lsd_digits_length_pow; [lia|done]. }
  change (10 ^ Z.of_nat 10) with 10000000000 in Hten.
  destruct (Z.ltb_spec n 0) as [Hneg|Hpos].
  - rewrite (Z.mod_small (- n)) by lia.
    destruct (printIntegerInBase_parse fuel (- n) 10 Hfuel) as
      (out & -> & Hparse & Hlen); [lia|lia|].
    exists ("-"%byte :: out). split; [done|]. split.
    + unfold Parse.parse_signed. change (byte_to_Z "-" =? 45) with true.
      cbv iota. rewrite Hparse. simpl. by rewrite Z.opp_involutive.
    + specialize (Hten (- n) ltac:(lia)). simpl. lia.
  - rewrite (Z.mod_small n) by lia.
    destruct (printIntegerInBase_parse fuel n 10 Hfuel) as
      (out & -> & Hparse & Hlen); [lia|lia|].
    exists out. split; [done|]. split.
    + unfold Parse.parse_signed. destruct out as [|b rest]; [done|].
      destruct (Z.eqb_spec (byte_to_Z b) 45) as [E|_]; [|done].
      exfalso. unfold Parse.parse_unsigned, Parse.parse_from in Hparse.
      unfold Parse.digit_of_char in Hparse. rewrite E in Hparse.
      discriminate Hparse.
    + specialize (Hten n ltac:(lia)). lia.
Qed.

(** X17.  [printInteger] loses nothing over the whole range of [long],
    [LONG_MIN] included: reading its text back as an optional ['-']
    followed by decimal digits yields [n], and the text has between 1 and
    11 bytes. *)
Theorem printInteger_round_trip fuel n :
  (Print.BUF_LEN <= fuel)%nat ->
  - 2147483648 <= n < 2147483648 ->
  exists out,
    Print.printInteger fuel n = Print.Done out
    /\ Parse.parse_signed out = Some n
    /\ (1 <= length out <= 11)%nat.
Proof. apply printInteger_parse. Qed.

Lemma printInteger_round_trip_witness :
  (Print.BUF_LEN <= 32)%nat
  /\ - 2147483648 <= - 2147483648 < 2147483648
  /\ exists out,
       Print.printInteger 32 (- 2147483648) = Print.Done out
       /\ Parse.parse_signed out = Some (- 2147483648).
Proof.
  assert (Print.BUF_LEN <= 32)%nat as Hfuel by (vm_compute; lia).
  assert (- 2147483648 <= - 2147483648 < 2147483648) as Hn by lia.
  split; [exact Hfuel|]. split; [exact Hn|].
  destruct (printInteger_round_trip 32 (- 2147483648) Hfuel Hn)
    as (out & Hprint & Hparse & _).
  exists out. split; [exact Hprint|exact Hparse].
Defined.

(** X18.  [printInteger] never has to wait on an idle driver: its text is
    at most 11 bytes, so with an empty transmit buffer every one of its
    [printByte] calls returns, whatever UCSR0A reads at each call, and the
    text ends up in UDR0 and the buffer in order. *)
Theorem printInteger_fits_empty_buffer fuel n s :
  (Print.BUF_LEN <= fuel)%nat ->
  - 2147483648 <= n < 2147483648 ->
  Tx.valid s ->
  Tx.tx_buffer_head s = Tx.tx_buffer_tail s ->
  exists out,
    Print.printInteger fuel n = Print.Done out
    /\ forall ws,
         map snd ws = out ->
         exists s',
           TxRun.write_all ws s = Tx.Returned s'
           /\ Tx.UDR0 s' ++ Tx.pending s' = Tx.UDR0 s ++ out.
Proof.
  intros Hfuel Hn Hv Hempty.
  destruct (printInteger_parse fuel n Hfuel Hn) as (out & Hprint & _ & Hlen).
  exists out. split; [done|]. intros ws Hws.
  assert (Tx.pending s = []) as Hp.
  { unfold Tx.pending. rewrite Hempty. by apply ring_contents_diag. }
  destruct (write_all_room ws s Hv) as (s' & Hrun & _ & Hout & _).
  { rewrite Hp, <- (length_map snd ws), Hws. simpl. lia. }
  exists s'. split; [done|]. by rewrite Hout, Hp, Hws.
Qed.

Lemma printInteger_fits_empty_buffer_witness :
  (Print.BUF_LEN <= 32)%nat
  /\ - 2147483648 <= -42 < 2147483648
  /\ Tx.valid Tx.init
  /\ Tx.tx_buffer_head Tx.init = Tx.tx_buffer_tail Tx.init
  /\ exists out,
       Print.printInteger 32 (-42) = Print.Done out
       /\ exists s',
            TxRun.write_all (map (fun c => (0, c)) out) Tx.init = Tx.Returned s'
            /\ Tx.UDR0 s' ++ Tx.pending s' = out.
Proof.
  assert (Print.BUF_LEN <= 32)%nat as Hfuel by (vm_compute; lia).
  assert (- 2147483648 <= -42 < 2147483648) as Hn by lia.
  assert (Tx.valid Tx.init) as Hv by (repeat split; vm_compute; congruence).
  split; [exact Hfuel|]. split; [exact Hn|]. split; [exact Hv|].
  split; [reflexivity|].
  destruct (printInteger_fits_empty_buffer 32 (-42) Tx.init Hfuel Hn Hv eq_refl)
    as (out & Hprint & Hws).
  exists out. split; [exact Hprint|].
  apply Hws. rewrite map_map. simpl. apply map_id.
Defined.

Lemma digit_loop_base_1 fuel : forall n buf i,
  0 < n ->
  (i <= 32)%nat ->
  Print.digit_loop fuel n 1 buf i
  = if (fuel <=? 32 - i)%nat then Print.OutOfFuel else Print.Undefined.
Proof.
  induction fuel as [|fuel IH]; intros n buf i Hn Hi.
  - simpl. by rewrite (proj2 (Z.gtb_lt n 0)) by lia.
  - rewrite digit_loop_step, (proj2 (Z.gtb_lt n 0)) by lia.
    change (1 =? 0) with false. cbv iota. change Print.BUF_LEN with 32%nat.
    destruct (Nat.leb_spec 32 i) as [Hfull|Hroom].
    + destruct (Nat.leb_spec (S fuel) (32 - i)); [lia|done].
    + rewrite Z.div_1_r, IH by lia.
      destruct (Nat.leb_spec fuel (32 - S i)), (Nat.leb_spec (S fuel) (32 - i));
        first [done|lia].
Qed.

(** X19.  [printIntegerInBase] does not guard its base.  For [n > 0], base 1
    leaves [n] unchanged in every iteration, so the digit loop never ends
    by itself and its 33rd iteration stores outside the 32-slot array;
    base 0 divides by zero in the first iteration.  Neither call prints
    anything. *)
Theorem printIntegerInBase_bad_base fuel n :
  0 < n ->
  Print.printIntegerInBase fuel n 1
  = (if (fuel <=? 32)%nat then Print.OutOfFuel else Print.Undefined)
  /\ Print.printIntegerInBase (S fuel) n 0 = Print.Undefined.
Proof.
  intros Hn. unfold Print.printIntegerInBase, Print.printIntegerInBase_from.
  rewrite (proj2 (Z.eqb_neq n 0)) by lia. split.
  - rewrite digit_loop_base_1 by lia. rewrite Nat.sub_0_r.
    by destruct (fuel <=? 32)%nat.
  - by rewrite digit_loop_step, (proj2 (Z.gtb_lt n 0)) by lia.
Qed.

Lemma printIntegerInBase_bad_base_witness :
  0 < 5
  /\ Print.printIntegerInBase 33 5 1 = Print.Undefined
  /\ Print.printIntegerInBase 1 5 0 = Print.Undefined.
Proof.
  assert (0 < 5) as Hn by lia.
  split; [exact Hn|].
  destruct (printIntegerInBase_bad_base 33 5 Hn) as [Hone _].
  destruct (printIntegerInBase_bad_base 0 5 Hn) as [_ Hzero].
  split; [exact Hone|exact Hzero].
Defined.

(** X20.  [printIntegerInBase] never reads a slot of its local array that
    it has not written: for every base of at least 2 the printed text is
    the same whatever the array holds on entry. *)
Theorem printIntegerInBase_ignores_stale_array buf0 fuel n base :
  length buf0 = Print.BUF_LEN ->
  (Print.BUF_LEN <= fuel)%nat ->
  0 <= n < Print.ULONG_MOD ->
  2 <= base ->
  Print.printIntegerInBase_from buf0 fuel n base
  = Print.printIntegerInBase fuel n base.
Proof.
  intros Hlen Hfuel Hn Hbase.
  destruct (Z.eq_dec n 0) as [->|Hnz]; [done|].
  pose proof (lsd_digits_length base Print.BUF_LEN n) as Hds.
  destruct (printIntegerInBase_from_digits buf0 fuel n base) as (_ & _ & ->);
    [done|lia|done|lia|].
  destruct (printIntegerInBase_from_digits (replicate Print.BUF_LEN 0)
              fuel n base) as (_ & _ & Hzero);
    [by rewrite length_replicate|lia|done|lia|].
  symmetry. exact Hzero.
Qed.

Lemma printIntegerInBase_ignores_stale_array_witness :
  length (replicate 32 255) = Print.BUF_LEN
  /\ (Print.BUF_LEN <= 32)%nat
  /\ 0 <= 1234 < Print.ULONG_MOD
  /\ 2 <= 10
  /\ Print.printIntegerInBase_from (replicate 32 255) 32 1234 10
     = Print.Done ["1"; "2"; "3"; "4"]%byte.
Proof.
  assert (length (replicate 32 255) = Print.BUF_LEN) as Hlen by reflexivity.
  assert (Print.BUF_LEN <= 32)%nat as Hfuel by (vm_compute; lia).
  assert (0 <= 1234 < Print.ULONG_MOD) as Hn by (vm_compute; done).
  assert (2 <= 10) as Hbase by lia.
  split; [exact Hlen|]. split; [exact Hfuel|]. split; [exact Hn|].
  split; [exact Hbase|].
  rewrite (printIntegerInBase_ignores_stale_array (replicate 32 255) 32 1234 10
             Hlen Hfuel Hn Hbase).
  reflexivity.
Defined.
